(** * unparam: detection of unused function parameters

    A shallow embedding of [main.go] (package [main] of the [unparam]
    tool) and the properties of its analysis.

    The program model handed to the analysis (packages, members, SSA
    functions, basic blocks, the file set) is built by [go/loader] and
    [go/ssa]; it appears here as plain data.  What the Go libraries compute
    for the analysis ([types.Type.String], [regexp.MatchString],
    [token.FileSet.Position], [sort.Slice]) is modelled next to the place
    where [main.go] calls it. *)

From stdpp Require Import base decidable option list strings gmap.
From stdpp Require Import sorting pretty.
From Stdlib Require Import Ascii String ZArith Lia Permutation Sorted.

Local Open Scope string_scope.
Local Open Scope list_scope.
Local Open Scope Z_scope.

(** ** Go types ([go/types]) *)

(** The fragment of [types.Type] the analysis distinguishes.  A named type
    carries its name as [TypeString] prints it.  A [Var] is a parameter,
    result, field or interface method: a name and a type.  A [Signature]
    carries its receiver apart from its parameters, as [types.Signature]
    does: [Params()] never contains the receiver. *)
Inductive GoType : Type :=
  | TBasic (name : string)
  | TNamed (name : string) (underlying : GoType)
  | TPointer (elem : GoType)
  | TSlice (elem : GoType)
  | TMap (key elem : GoType)
  | TStruct (fields : list Var)
  | TInterface (methods : list Var)
  | TSig (sign : Signature)
with Var : Type :=
  | mkVar (name : string) (ty : GoType)
with Signature : Type :=
  | mkSignature (recv : option Var) (params results : list Var).

Definition var_name (v : Var) : string := let (n, _) := v in n.
Definition var_type (v : Var) : GoType := let (_, t) := v in t.
Definition Recv (s : Signature) : option Var :=
  match s with mkSignature r _ _ => r end.
Definition Params (s : Signature) : list Var :=
  match s with mkSignature _ ps _ => ps end.
Definition Results (s : Signature) : list Var :=
  match s with mkSignature _ _ rs => rs end.

(** [strings.Join]-like rendering of a list, the separator between items. *)
Definition join_with {A} (f : A → string) (sep : string) : list A → string :=
  fix go (l : list A) : string :=
    match l with
    | [] => ""
    | [x] => f x
    | x :: l' => f x +:+ sep +:+ go l'
    end.

(** [types.TypeString] with no qualifier.  Unlike [signString] below it
    prints the names of parameters and results. *)
Fixpoint TypeString (t : GoType) : string :=
  let named (v : Var) : string :=
    match v with
    | mkVar "" ty => TypeString ty
    | mkVar n ty => n +:+ " " +:+ TypeString ty
    end in
  let tuple (vs : list Var) : string :=
    "(" +:+ join_with named ", " vs +:+ ")" in
  let signature (s : Signature) : string :=
    match s with
    | mkSignature _ ps [] => tuple ps
    | mkSignature _ ps [mkVar "" ty] => tuple ps +:+ " " +:+ TypeString ty
    | mkSignature _ ps rs => tuple ps +:+ " " +:+ tuple rs
    end in
  match t with
  | TBasic n => n
  | TNamed n _ => n
  | TPointer e => "*" +:+ TypeString e
  | TSlice e => "[]" +:+ TypeString e
  | TMap k e => "map[" +:+ TypeString k +:+ "]" +:+ TypeString e
  | TStruct fs => "struct{" +:+ join_with named "; " fs +:+ "}"
  | TInterface ms =>
      "interface{" +:+
      join_with (λ m, match m with
                      | mkVar n (TSig s) => n +:+ signature s
                      | mkVar n ty => n +:+ " " +:+ TypeString ty
                      end) "; " ms +:+ "}"
  | TSig s => "func" +:+ signature s
  end.

(** [types.Type.Underlying]: a named type gives the type it was declared
    as, every other type gives itself. *)
Fixpoint Underlying (t : GoType) : GoType :=
  match t with
  | TNamed _ u => Underlying u
  | _ => t
  end.

Definition tInt : GoType := TBasic "int".
Definition tString : GoType := TBasic "string".

(** ** The shared buffer and run-time panics *)

(** [signBuf] is one [bytes.Buffer] for the whole process.  A computation
    reads and writes it, and may stop in a run-time panic ([None]): the
    slice expression of [unusedParams] panics when its bound is out of
    range. *)
Definition Buffer : Type := string.

Definition M (A : Type) : Type := Buffer → option (A * Buffer).

Global Instance M_ret : MRet M := λ A (a : A) buf, Some (a, buf).
Global Instance M_bind : MBind M := λ A B (k : A → M B) (m : M A) buf,
  match m buf with
  | Some (a, buf') => k a buf'
  | None => None
  end.
Definition panic {A} : M A := λ _, None.

(** What a run returns, the final buffer dropped. *)
Definition eval {A} (m : M A) (buf : Buffer) : option A :=
  fst <$> m buf.

(** The methods of [bytes.Buffer] that [main.go] calls. *)
Definition Reset : M unit := λ _, Some (tt, "").
Definition WriteByte (c : ascii) : M unit :=
  λ buf, Some (tt, buf +:+ String c "").
Definition WriteString (s : string) : M unit :=
  λ buf, Some (tt, buf +:+ s).
Definition BufString : M string := λ buf, Some (buf, buf).

(** A [for] loop over a slice with an accumulator. *)
Fixpoint foldM {A B} (f : B → A → M B) (acc : B) (l : list A) : M B :=
  match l with
  | [] => mret acc
  | x :: l' => acc' ← f acc x; foldM f acc' l'
  end.

(** ** Signature rendering *)

(** The loop of [tupleJoin], [i] the index of the head of [t]. *)
Fixpoint tupleJoin_from (i : nat) (t : list Var) : M unit :=
  match t with
  | [] => mret tt
  | v :: t' =>
      (if decide (0 < i)%nat then WriteString ", " else mret tt) ;;
      WriteString (TypeString (var_type v)) ;;
      tupleJoin_from (S i) t'
  end.

Definition tupleJoin (t : list Var) : M unit :=
  WriteByte "(" ;;
  tupleJoin_from 0 t ;;
  WriteByte ")".

(** [signString]: like [Signature.String()], without the names. *)
Definition signString (sign : Signature) : M string :=
  Reset ;;
  tupleJoin (Params sign) ;;
  tupleJoin (Results sign) ;;
  BufString.

(** ** The SSA program model ([go/ssa]) *)

(** An [ssa.Value] as the analysis sees it: whether it is an [*ssa.Const],
    its [Name()] and its [String()]. *)
Record Value : Type := mkValue {
  val_isConst : bool;
  val_Name : string;
  val_String : string
}.

(** The instruction kinds of [go/ssa].  Operands are kept where [dummyImpl]
    reads them. *)
Inductive Instruction : Type :=
  | Alloc | Store | UnOp | BinOp | MakeInterface | MakeMap | Extract
  | IndexAddr | FieldAddr | Slice | Lookup | ChangeType | TypeAssert
  | Convert | ChangeInterface
  | Return (Results : list Value)
  | Panic (X : Value)
  | Call (Value : Value)
  | Phi | Field | Index | MakeClosure | MakeChan | MakeSlice | Range | Next
  | Select | Send | MapUpdate | If | Jump | Go | Defer | RunDefers
  | DebugRef.

Record BasicBlock : Type := mkBlock { Instrs : list Instruction }.

(** An [ssa.Parameter]: [par_Name] is [Name()], [par_ObjectName] is
    [Object().Name()], [par_Referrers] is [*Referrers()]. *)
Record Param : Type := mkParam {
  par_Name : string;
  par_ObjectName : string;
  par_Pos : Z;
  par_Referrers : list Instruction
}.

(** A package is known by its import path. *)
Definition PkgPath : Type := string.

(** An [ssa.Function].  [fn_Pkg] is [None] for builtins and synthetic
    wrappers, [fn_Blocks] is empty for a function without a body. *)
Record Function : Type := mkFunction {
  fn_name : string;
  fn_Pkg : option PkgPath;
  fn_Signature : Signature;
  fn_Params : list Param;
  fn_Blocks : list BasicBlock
}.

(** A package member, by its [Token()]: [FUNC] with the function's
    signature, [TYPE] with the declared type, [CONST] or [VAR]. *)
Inductive Member : Type :=
  | MFunc (name : string) (sign : Signature)
  | MType (name : string) (ty : GoType)
  | MConst (name : string)
  | MGlobal (name : string).

Record Package : Type := mkPackage {
  pkg_Path : PkgPath;
  pkg_Members : list Member
}.

(** ** Source positions ([go/token]) *)

(** A file of the file set: the [token.Pos] values [file_base .. file_base
    + file_size] belong to it, [file_lines] holds the offset of the first
    character of each line. *)
Record File : Type := mkFile {
  file_name : string;
  file_base : Z;
  file_size : Z;
  file_lines : list Z
}.

Definition FileSet : Type := list File.

Record Position : Type := mkPosition {
  Filename : string;
  Offset : Z;
  Line : Z;
  Column : Z
}.

(** [searchFiles]: the last file of the leading run of files whose base is
    at most [p], with its index; the library finds it by binary search in
    the files sorted by base. *)
Fixpoint searchFiles (fs : list File) (p : Z) : option (nat * File) :=
  match fs with
  | [] => None
  | f :: fs' =>
      if decide (file_base f ≤ p) then
        match searchFiles fs' p with
        | Some (i, g) => Some (S i, g)
        | None => Some (0%nat, f)
        end
      else None
  end.

(** [FileSet.file]. *)
Definition fset_file (fs : FileSet) (p : Z) : option (nat * File) :=
  match searchFiles fs p with
  | Some (i, f) =>
      if decide (p ≤ file_base f + file_size f) then Some (i, f) else None
  | None => None
  end.

(** [searchInts]: the index and value of the last entry of the leading run
    of entries that are at most [x]. *)
Fixpoint searchInts (a : list Z) (x : Z) : option (nat * Z) :=
  match a with
  | [] => None
  | y :: a' =>
      if decide (y ≤ x) then
        match searchInts a' x with
        | Some (i, v) => Some (S i, v)
        | None => Some (0%nat, y)
        end
      else None
  end.

(** [File.position], without [//line] adjustments. *)
Definition file_position (f : File) (p : Z) : Position :=
  let offset := p - file_base f in
  match searchInts (file_lines f) offset with
  | Some (i, start) =>
      mkPosition (file_name f) offset (Z.of_nat i + 1) (offset - start + 1)
  | None => mkPosition (file_name f) offset 0 0
  end.

Definition NoPos : Z := 0.

(** [FileSet.Position]. *)
Definition fset_Position (fs : FileSet) (p : Z) : Position :=
  if decide (p = NoPos) then mkPosition "" 0 0 0
  else match fset_file fs p with
       | Some (_, f) => file_position f p
       | None => mkPosition "" 0 0 0
       end.

(** [Position.String]. *)
Definition Position_String (pos : Position) : string :=
  let s := Filename pos in
  let s :=
    if decide (0 < Line pos) then
      let s := if decide (s = "") then s else s +:+ ":" in
      let s := s +:+ pretty (Line pos) in
      if decide (Column pos = 0) then s else s +:+ ":" +:+ pretty (Column pos)
    else s in
  if decide (s = "") then "-" else s.

(** ** Regular expressions ([regexp]) *)

(** The operators the pattern of [main.go] is written with. *)
Inductive Regexp : Type :=
  | Empty
  | Lit (c : ascii)
  | WordBoundary
  | Cat (r1 r2 : Regexp)
  | Alt (r1 r2 : Regexp)
  | Opt (r : Regexp).

(** The word characters of [\b]: ASCII letters, digits and underscore. *)
Definition is_word_char (c : ascii) : bool :=
  let n := N_of_ascii c in
  ((48 <=? n) && (n <=? 57) || (65 <=? n) && (n <=? 90) ||
   (97 <=? n) && (n <=? 122) || (n =? 95))%N.

Definition is_word (c : option ascii) : bool :=
  match c with Some c => is_word_char c | None => false end.

Definition to_lower (c : ascii) : ascii :=
  let n := N_of_ascii c in
  if ((65 <=? n) && (n <=? 90))%N then ascii_of_N (n + 32) else c.

Definition string_head (s : string) : option ascii :=
  match s with String c _ => Some c | EmptyString => None end.

(** A backtracking matcher: [r] is matched at the front of [s], [prev] the
    character before [s], and [k] takes over where [r] ends.  With
    [fold_case] a literal matches both cases of its letter. *)
Fixpoint rmatch (fold_case : bool) (r : Regexp) (prev : option ascii)
    (s : string) (k : option ascii → string → bool) : bool :=
  match r with
  | Empty => k prev s
  | Lit c =>
      match s with
      | String x s' =>
          if (if fold_case then Ascii.eqb (to_lower c) (to_lower x)
              else Ascii.eqb c x)
          then k (Some x) s' else false
      | EmptyString => false
      end
  | WordBoundary =>
      if xorb (is_word prev) (is_word (string_head s)) then k prev s
      else false
  | Cat r1 r2 =>
      rmatch fold_case r1 prev s (λ p s', rmatch fold_case r2 p s' k)
  | Alt r1 r2 => rmatch fold_case r1 prev s k || rmatch fold_case r2 prev s k
  | Opt r1 => rmatch fold_case r1 prev s k || k prev s
  end.

(** A match that starts at the front of [s] or further right. *)
Fixpoint rsearch (fold_case : bool) (r : Regexp) (prev : option ascii)
    (s : string) : bool :=
  rmatch fold_case r prev s (λ _ _, true) ||
  match s with
  | String c s' => rsearch fold_case r (Some c) s'
  | EmptyString => false
  end.

(** A compiled pattern: its flag [(?i)] and its expression. *)
Record Compiled : Type := mkCompiled { rx_fold : bool; rx_expr : Regexp }.

Definition MatchString (rx : Compiled) (s : string) : bool :=
  rsearch (rx_fold rx) (rx_expr rx) None s.

(** The literal characters of a word, in sequence. *)
Fixpoint word (w : string) : Regexp :=
  match w with
  | EmptyString => Empty
  | String c w' => Cat (Lit c) (word w')
  end.

(** [(?i)\blog(ger)?\b|\bf?print] *)
Definition rxHarmlessCall : Compiled :=
  mkCompiled true
    (Alt (Cat WordBoundary
              (Cat (word "log") (Cat (Opt (word "ger")) WordBoundary)))
         (Cat WordBoundary (Cat (Opt (Lit "f")) (word "print")))).

(** ** The stub detector *)

(** The loop of [dummyImpl] over the instructions of the block. *)
Fixpoint dummyImpl_from (instrs : list Instruction) : bool :=
  match instrs with
  | [] => false
  | instr :: rest =>
      match instr with
      | Alloc | Store | UnOp | BinOp | MakeInterface | MakeMap | Extract
      | IndexAddr | FieldAddr | Slice | Lookup | ChangeType | TypeAssert
      | Convert | ChangeInterface =>
          dummyImpl_from rest
      | Return results => forallb val_isConst results
      | Panic _ => true
      | Call v =>
          if MatchString rxHarmlessCall (val_String v) then dummyImpl_from rest
          else bool_decide (val_Name v = "throw")
      | _ => false
      end
  end.

Definition dummyImpl (blk : BasicBlock) : bool := dummyImpl_from (Instrs blk).

(** ** The analysis *)

(** The loaded program as [unusedParams] reads it.  [AllPackages],
    [pkg_Members] and [AllFunctions] list what the Go program ranges over,
    in the order the range visits it (for the two maps, an order the
    runtime picks). *)
Record Program : Type := mkProgram {
  InitialPackages : list PkgPath;
  AllPackages : list Package;
  AllFunctions : list Function;
  Fset : FileSet
}.

(** A Go [map[K]bool] read at a key: [false] where the key is absent. *)
Definition map_get `{Countable K} (m : gmap K bool) (k : K) : bool :=
  default false (m !! k).

(** [wantPkg], filled from the initial packages. *)
Definition wantPkg (prog : Program) : gmap PkgPath bool :=
  foldl (λ m info, <[info := true]> m) ∅ (InitialPackages prog).

(** The closure [addSign], the map it writes made explicit. *)
Definition addSign (funcSigns : gmap string bool) (t : GoType)
    : M (gmap string bool) :=
  match t with
  | TSig sign =>
      if decide (List.length (Params sign) = 0%nat) then mret funcSigns
      else s ← signString sign; mret (<[s := true]> funcSigns)
  | _ => mret funcSigns
  end.

(** The body of the loop over the members of a package. *)
Definition addMember (funcSigns : gmap string bool) (mb : Member)
    : M (gmap string bool) :=
  match mb with
  | MFunc _ sign => foldM addSign funcSigns (var_type <$> Params sign)
  | MType _ ty =>
      match Underlying ty with
      | TStruct fields => foldM addSign funcSigns (var_type <$> fields)
      | TInterface methods => foldM addSign funcSigns (var_type <$> methods)
      | TSig x => addSign funcSigns (TSig x)
      | _ => mret funcSigns
      end
  | _ => mret funcSigns
  end.

(** [funcSigns] after the loop over all packages. *)
Definition funcSigns (prog : Program) : M (gmap string bool) :=
  foldM (λ fs pkg, foldM addMember fs (pkg_Members pkg)) ∅ (AllPackages prog).

(** An element of [potential]: the parameter with the function it was
    reached from, which is its [Parent()]. *)
Definition Candidate : Type := Function * Param.

(** The loop over [fn.Params], [i] the index of the head of [pars]. *)
Fixpoint scanParams (fn : Function) (i : nat) (pars : list Param)
    (potential : list Candidate) : list Candidate :=
  match pars with
  | [] => potential
  | par :: rest =>
      if decide (i = 0%nat ∧ Recv (fn_Signature fn) ≠ None) then
        scanParams fn (S i) rest potential
      else if decide (par_ObjectName par = "" ∨ par_ObjectName par = "_") then
        scanParams fn (S i) rest potential
      else if decide (0 < List.length (par_Referrers par))%nat then
        scanParams fn (S i) rest potential
      else scanParams fn (S i) rest (potential ++ [(fn, par)])%list
  end.

(** The body of the loop over all functions. *)
Definition scanFunction (want : gmap PkgPath bool)
    (potential : list Candidate) (fn : Function) : list Candidate :=
  match fn_Pkg fn with
  | None => potential
  | Some pkg =>
      match fn_Blocks fn with
      | [] => potential
      | blk :: _ =>
          if negb (map_get want pkg) then potential
          else if dummyImpl blk then potential
          else scanParams fn 0 (fn_Params fn) potential
      end
  end.

Definition potential (prog : Program) : list Candidate :=
  foldl (scanFunction (wantPkg prog)) [] (AllFunctions prog).

(** [sort.Slice] promises a permutation ordered by [less] and nothing on
    the order of elements that [less] does not separate.  An insertion
    sort stands for it. *)
Fixpoint sort_insert {A} (less : A → A → bool) (x : A) (l : list A) : list A :=
  match l with
  | [] => [x]
  | y :: l' => if less y x then y :: sort_insert less x l' else x :: l
  end.

Definition sort_Slice {A} (less : A → A → bool) (l : list A) : list A :=
  foldr (sort_insert less) [] l.

Definition lessPos (a b : Candidate) : bool :=
  bool_decide (par_Pos a.2 < par_Pos b.2).

(** [s[n:]] on a string: a run-time panic when [n] exceeds the length. *)
Fixpoint slice_from (n : nat) (s : string) : option string :=
  match n, s with
  | O, _ => Some s
  | S n', String _ s' => slice_from n' s'
  | S _, EmptyString => None
  end.

(** The body of the loop that turns candidates into warnings. *)
Definition warn (wd : string) (fset : FileSet) (sigs : gmap string bool)
    (warns : list string) (c : Candidate) : M (list string) :=
  let '(parent, par) := c in
  sign ← signString (fn_Signature parent);
  if map_get sigs sign then mret warns
  else
    let line := Position_String (fset_Position fset (par_Pos par)) in
    line ← (if String.prefix wd line then
              match slice_from (String.length wd + 1) line with
              | Some line' => mret line'
              | None => panic
              end
            else mret line);
    mret (warns ++ [line +:+ ": " +:+ par_Name par +:+ " is unused"])%list.

(** [unusedParams] from the point where the program is loaded and built:
    [wd] is what [os.Getwd] returned and [prog] what the loader and
    [ssautil.CreateProgram] built.  (When [os.Getwd] or the loader fails,
    the function returns that error before any of this runs.) *)
Definition unusedParams (wd : string) (prog : Program) : M (list string) :=
  sigs ← funcSigns prog;
  let sorted := sort_Slice lessPos (potential prog) in
  foldM (warn wd (Fset prog) sigs) [] sorted.


(** ** What the analysis computes, without the buffer *)

(** The normalized signature: [(T1, T2, ...)(R1, R2, ...)], types only. *)
Definition tuple_text (t : list Var) : string :=
  "(" +:+ join_with TypeString ", " (var_type <$> t) +:+ ")".

Definition normalized (sign : Signature) : string :=
  tuple_text (Params sign) +:+ tuple_text (Results sign).

(** The types handed to [addSign] for one member, and for the program. *)
Definition member_types (mb : Member) : list GoType :=
  match mb with
  | MFunc _ sign => var_type <$> Params sign
  | MType _ ty =>
      match Underlying ty with
      | TStruct fields => var_type <$> fields
      | TInterface methods => var_type <$> methods
      | TSig x => [TSig x]
      | _ => []
      end
  | _ => []
  end.

Definition program_types (prog : Program) : list GoType :=
  pkg ← AllPackages prog; mb ← pkg_Members pkg; member_types mb.

(** [addSign] on the map alone. *)
Definition add_key (sigs : gmap string bool) (t : GoType) : gmap string bool :=
  match t with
  | TSig sign =>
      if decide (List.length (Params sign) = 0%nat) then sigs
      else <[normalized sign := true]> sigs
  | _ => sigs
  end.

Definition catalog (prog : Program) : gmap string bool :=
  foldl add_key ∅ (program_types prog).

(** The candidates one function contributes. *)
Definition function_candidates (want : gmap PkgPath bool) (fn : Function)
    : list Candidate :=
  scanFunction want [] fn.

(** A candidate whose parent's normalized signature is not in the map. *)
Definition uncatalogued (sigs : gmap string bool) (c : Candidate) : Prop :=
  map_get sigs (normalized (fn_Signature c.1)) = false.

Global Instance uncatalogued_dec sigs c : Decision (uncatalogued sigs c).
Proof. unfold uncatalogued. apply _. Defined.

(** The candidates that survive the catalog, in output order. *)
Definition reported (prog : Program) : list Candidate :=
  filter (uncatalogued (catalog prog)) (sort_Slice lessPos (potential prog)).

(** The position of a candidate as printed, before the working directory
    is cut off. *)
Definition position_line (fset : FileSet) (c : Candidate) : string :=
  Position_String (fset_Position fset (par_Pos c.2)).

(** The text printed in place of [line]: [None] is the run-time panic. *)
Definition relative (wd line : string) : option string :=
  if String.prefix wd line then slice_from (String.length wd + 1) line
  else Some line.

(** The warning of a candidate. *)
Definition warning (wd : string) (fset : FileSet) (c : Candidate)
    : option string :=
  line ← relative wd (position_line fset c);
  Some (line +:+ ": " +:+ par_Name c.2 +:+ " is unused").

(** ** Vocabulary of the properties *)

(** A signature contributes its key when it has a parameter. *)
Definition contributes (t : GoType) (k : string) : Prop :=
  ∃ sign, t = TSig sign ∧ Params sign ≠ [] ∧ normalized sign = k.

(** A parameter the scan keeps: at index [i] of the parameter list, not the
    receiver, named, and without referrers. *)
Definition kept (fn : Function) (i : nat) (par : Param) : Prop :=
  ¬ (i = 0%nat ∧ Recv (fn_Signature fn) ≠ None) ∧
  par_ObjectName par ≠ "" ∧ par_ObjectName par ≠ "_" ∧
  par_Referrers par = [].

(** A function the scan enters: in a wanted package, with a body whose
    entry block is not a dummy implementation. *)
Definition scanned (prog : Program) (fn : Function) : Prop :=
  ∃ pkg blk rest,
    fn_Pkg fn = Some pkg ∧ pkg ∈ InitialPackages prog ∧
    fn_Blocks fn = blk :: rest ∧ dummyImpl blk = false.

Definition posKey (c : Candidate) : Z := par_Pos c.2.

Fixpoint lower (s : string) : string :=
  match s with
  | EmptyString => EmptyString
  | String c s' => String (to_lower c) (lower s')
  end.

(** The last character of [pre], or [prev] when [pre] is empty. *)
Fixpoint last_char (prev : option ascii) (pre : string) : option ascii :=
  match pre with
  | EmptyString => prev
  | String c pre' => last_char (Some c) pre'
  end.

(** [pre] ends where a word may start, [post] starts where a word may
    end: at the edge of the text or at a character that is not a word
    character. *)
Definition at_word_start (pre : string) : Prop :=
  is_word (last_char None pre) = false.

Definition at_word_end (post : string) : Prop :=
  is_word (string_head post) = false.

(** What the pattern of [rxHarmlessCall] looks for in a callee's text: at a
    word start, [log] or [logger] as a whole word, or [print] or [fprint]
    with anything after it; letters in either case. *)
Definition harmless_name (s : string) : Prop :=
  ∃ pre w post, s = pre +:+ w +:+ post ∧ at_word_start pre ∧
    ((lower w = "log" ∨ lower w = "logger") ∧ at_word_end post ∨
     lower w = "print" ∨ lower w = "fprint").

(** The instruction kinds the scan steps over without a decision. *)
Definition structural (instr : Instruction) : Prop :=
  match instr with
  | Alloc | Store | UnOp | BinOp | MakeInterface | MakeMap | Extract
  | IndexAddr | FieldAddr | Slice | Lookup | ChangeType | TypeAssert
  | Convert | ChangeInterface => True
  | _ => False
  end.

(** An instruction the scan continues past: a structural one or a call
    with a harmless name. *)
Definition passed (instr : Instruction) : Prop :=
  structural instr ∨
  ∃ v, instr = Call v ∧ harmless_name (val_String v).

(** A position that lies in a file of the file set. *)
Definition located (fset : FileSet) (p : Z) : Prop :=
  p ≠ NoPos ∧ is_Some (fset_file fset p).

(** The place of a position for the reader: the rank of its file in the
    file set, its line and its column. *)
Definition source_key (fset : FileSet) (p : Z) : nat * Z * Z :=
  (from_option fst 0%nat (fset_file fset p),
   Line (fset_Position fset p), Column (fset_Position fset p)).

(** Earlier by file, then line, then column. *)
Definition key_lt (a b : nat * Z * Z) : Prop :=
  (a.1.1 < b.1.1)%nat ∨
  a.1.1 = b.1.1 ∧ (a.1.2 < b.1.2 ∨ a.1.2 = b.1.2 ∧ a.2 < b.2).

(** [prog.AllPackages()], [pkg.Members], [ssautil.AllFunctions(prog)] and
    [lprog.InitialPackages()] come out of Go maps: two runs over one
    program may see their elements in different orders. *)
Definition same_packages (ps qs : list Package) : Prop :=
  ∃ ps', ps ≡ₚ ps' ∧
    Forall2 (λ a b, pkg_Path a = pkg_Path b ∧ pkg_Members a ≡ₚ pkg_Members b)
            ps' qs.

Record same_model (p q : Program) : Prop := {
  same_initial : InitialPackages p ≡ₚ InitialPackages q;
  same_pkgs : same_packages (AllPackages p) (AllPackages q);
  same_functions : AllFunctions p ≡ₚ AllFunctions q;
  same_fset : Fset p = Fset q
}.

(** What a member declares towards the catalog: the types of the
    parameters of a function declaration, of the fields of a struct type,
    of the methods of an interface type, and a declared function type
    itself. *)
Inductive declares : Member → GoType → Prop :=
  | declares_param name sign v :
      v ∈ Params sign → declares (MFunc name sign) (var_type v)
  | declares_field name ty fields v :
      Underlying ty = TStruct fields → v ∈ fields →
      declares (MType name ty) (var_type v)
  | declares_method name ty methods m :
      Underlying ty = TInterface methods → m ∈ methods →
      declares (MType name ty) (var_type m)
  | declares_functype name ty sign :
      Underlying ty = TSig sign → declares (MType name ty) (TSig sign).

(** Some member of some package declares a signature with at least one
    parameter whose normalized form is [k]. *)
Definition catalogued (prog : Program) (k : string) : Prop :=
  ∃ pkg mb sign,
    pkg ∈ AllPackages prog ∧ mb ∈ pkg_Members pkg ∧
    declares mb (TSig sign) ∧ Params sign ≠ [] ∧ normalized sign = k.

(** The slice expression of [unusedParams] stays in range for every
    candidate: no candidate's position text is the working directory
    itself. *)
Definition wd_fits (wd : string) (prog : Program) : Prop :=
  Forall (λ c, position_line (Fset prog) c ≠ wd) (potential prog).

(** Every candidate's position lies in a file of the file set. *)
Definition positions_located (prog : Program) : Prop :=
  Forall (λ c, located (Fset prog) (posKey c)) (potential prog).

(** No two candidates share a position. *)
Definition positions_distinct (prog : Program) : Prop :=
  NoDup (posKey <$> potential prog).

(** ** Example programs *)

Definition sig_of (ps rs : list Var) : Signature := mkSignature None ps rs.

Definition val (name text : string) : Value := mkValue false name text.
Definition const (text : string) : Value := mkValue true text text.

(** A root package [example.com/proj] in [/home/u/proj/main.go]:
<<
package main

func F(a int, b int) int { return a }

func G() { log.Println("x") }

func H(cb func(int)) { }
>> *)
Definition ex_main_go : File :=
  mkFile "/home/u/proj/main.go" 1 109 [0; 13; 14; 52; 53; 83; 84].

Definition ex_sig_F : Signature :=
  sig_of [mkVar "a" tInt; mkVar "b" tInt] [mkVar "" tInt].
Definition ex_sig_G : Signature := sig_of [] [].
Definition ex_sig_cb : Signature := sig_of [mkVar "" tInt] [].
Definition ex_sig_H : Signature := sig_of [mkVar "cb" (TSig ex_sig_cb)] [].

Definition ex_a : Param := mkParam "a" "a" 22 [Return [val "a" "a"]].
Definition ex_b : Param := mkParam "b" "b" 29 [].
Definition ex_cb : Param := mkParam "cb" "cb" 92 [].

Definition ex_F : Function :=
  mkFunction "F" (Some "example.com/proj") ex_sig_F [ex_a; ex_b]
    [mkBlock [Return [val "a" "a"]]].
Definition ex_G : Function :=
  mkFunction "G" (Some "example.com/proj") ex_sig_G []
    [mkBlock [Alloc; IndexAddr; MakeInterface; Store; Slice;
              Call (val "Println" "log.Println"); Return []]].
Definition ex_H : Function :=
  mkFunction "H" (Some "example.com/proj") ex_sig_H [ex_cb]
    [mkBlock [Return []]].

Definition ex_pkg : Package :=
  mkPackage "example.com/proj"
    [MFunc "F" ex_sig_F; MFunc "G" ex_sig_G; MFunc "H" ex_sig_H].

Definition ex_prog : Program :=
  mkProgram ["example.com/proj"] [ex_pkg] [ex_F; ex_G; ex_H] [ex_main_go].

(** The same program, its maps ranged over in another order. *)
Definition ex_prog' : Program :=
  mkProgram ["example.com/proj"]
    [mkPackage "example.com/proj"
       [MFunc "H" ex_sig_H; MFunc "F" ex_sig_F; MFunc "G" ex_sig_G]]
    [ex_H; ex_G; ex_F] [ex_main_go].

(** A root package in which [Apply] takes a callback of the shape of [F]:
<<
package main

func Apply(cb func(int, string)) { cb(1, "x") }

func F(x int, y string) { os.Exit(x) }
>> *)
Definition ex_apply_go : File :=
  mkFile "/home/u/proj/apply.go" 1 102 [0; 13; 14; 62; 63].

Definition ex_sig_xy : Signature :=
  sig_of [mkVar "x" tInt; mkVar "y" tString] [].
Definition ex_sig_Apply : Signature :=
  sig_of [mkVar "cb" (TSig (sig_of [mkVar "" tInt; mkVar "" tString] []))] [].

Definition ex_x : Param := mkParam "x" "x" 71 [Call (val "Exit" "os.Exit")].
Definition ex_y : Param := mkParam "y" "y" 78 [].

Definition ex_Apply : Function :=
  mkFunction "Apply" (Some "example.com/proj") ex_sig_Apply
    [mkParam "cb" "cb" 26 [Call (val "cb" "cb")]]
    [mkBlock [Call (val "cb" "cb"); Return []]].
Definition ex_Fxy : Function :=
  mkFunction "F" (Some "example.com/proj") ex_sig_xy [ex_x; ex_y]
    [mkBlock [Call (val "Exit" "os.Exit"); Return []]].

Definition ex_apply_prog : Program :=
  mkProgram ["example.com/proj"]
    [mkPackage "example.com/proj"
       [MFunc "Apply" ex_sig_Apply; MFunc "F" ex_sig_xy]]
    [ex_Apply; ex_Fxy] [ex_apply_go].

(** [F] alone, and [F] next to a dependency that declares
    [type Handler interface { M(a int, b string) }]. *)
Definition ex_alone_prog : Program :=
  mkProgram ["example.com/proj"]
    [mkPackage "example.com/proj" [MFunc "F" ex_sig_xy]]
    [ex_Fxy] [ex_apply_go].

Definition ex_Handler : GoType :=
  TNamed "example.com/dep.Handler"
    (TInterface
       [mkVar "M" (TSig (mkSignature (Some (mkVar "" (TBasic "Handler")))
                           [mkVar "a" tInt; mkVar "b" tString] []))]).

Definition ex_contract_prog : Program :=
  mkProgram ["example.com/proj"]
    [mkPackage "example.com/dep" [MType "Handler" ex_Handler];
     mkPackage "example.com/proj" [MFunc "F" ex_sig_xy]]
    [ex_Fxy] [ex_apply_go].

(** A callback that itself takes a callback:
    [func A(f func(g func(int))) { f(nil) }]. *)
Definition ex_sig_g : Signature := sig_of [mkVar "" tInt] [].
Definition ex_sig_f : Signature := sig_of [mkVar "g" (TSig ex_sig_g)] [].
Definition ex_sig_A : Signature := sig_of [mkVar "f" (TSig ex_sig_f)] [].

Definition ex_nested_prog : Program :=
  mkProgram ["example.com/proj"]
    [mkPackage "example.com/proj" [MFunc "A" ex_sig_A]]
    [mkFunction "A" (Some "example.com/proj") ex_sig_A
       [mkParam "f" "f" 22 [Call (val "f" "f")]]
       [mkBlock [Call (val "f" "f"); Return []]]]
    [mkFile "/home/u/proj/nested.go" 1 53 [0; 13; 14]].

(** The root package [example.com/project2], analysed from the sibling
    directory [/go/src/example.com/proj]; in
    [/go/src/example.com/project2/a.go]:
<<
package main

func F(y int) { os.Exit(1) }
>> *)
Definition ex_sibling_y : Param := mkParam "y" "y" 22 [].

Definition ex_sibling_F : Function :=
  mkFunction "F" (Some "example.com/project2") (sig_of [mkVar "y" tInt] [])
    [ex_sibling_y] [mkBlock [Call (val "Exit" "os.Exit"); Return []]].

Definition ex_sibling_prog : Program :=
  mkProgram ["example.com/project2"]
    [mkPackage "example.com/project2" [MFunc "F" (fn_Signature ex_sibling_F)]]
    [ex_sibling_F]
    [mkFile "/go/src/example.com/project2/a.go" 1 43 [0; 13; 14]].

(** Stubs and a function that computes:
<<
package main

func Zero(p int) int { return 0 }
func Todo(q int) { panic("unimplemented") }
func Last(u int, v int) int { return u }
func Sum(a, b, c int) int { x := a + b; return x }
>> *)
Definition ex_stub_go : File :=
  mkFile "/home/u/proj/stub.go" 1 184 [0; 13; 14; 48; 92; 133].

Definition ex_p : Param := mkParam "p" "p" 25 [].
Definition ex_q : Param := mkParam "q" "q" 59 [].
Definition ex_u : Param := mkParam "u" "u" 103 [Return [val "u" "u"]].
Definition ex_v : Param := mkParam "v" "v" 110 [].
Definition ex_c : Param := mkParam "c" "c" 149 [].

Definition ex_Zero : Function :=
  mkFunction "Zero" (Some "example.com/proj")
    (sig_of [mkVar "p" tInt] [mkVar "" tInt]) [ex_p]
    [mkBlock [Return [const "0:int"]]].
Definition ex_Todo : Function :=
  mkFunction "Todo" (Some "example.com/proj") (sig_of [mkVar "q" tInt] [])
    [ex_q] [mkBlock [MakeInterface; Panic (val "t0" "t0")]].
Definition ex_Last : Function :=
  mkFunction "Last" (Some "example.com/proj")
    (sig_of [mkVar "u" tInt; mkVar "v" tInt] [mkVar "" tInt]) [ex_u; ex_v]
    [mkBlock [Return [val "u" "u"]]].
Definition ex_Sum : Function :=
  mkFunction "Sum" (Some "example.com/proj")
    (sig_of [mkVar "a" tInt; mkVar "b" tInt; mkVar "c" tInt] [mkVar "" tInt])
    [mkParam "a" "a" 143 [BinOp]; mkParam "b" "b" 146 [BinOp]; ex_c]
    [mkBlock [BinOp; Return [val "t0" "t0"]]].

Definition ex_stub_pkg (fns : list Function) : Package :=
  mkPackage "example.com/proj"
    ((λ fn, MFunc (fn_name fn) (fn_Signature fn)) <$> fns).

Definition ex_stub_prog : Program :=
  mkProgram ["example.com/proj"]
    [ex_stub_pkg [ex_Zero; ex_Todo; ex_Last; ex_Sum]]
    [ex_Sum; ex_Zero; ex_Last; ex_Todo] [ex_stub_go].

(** The same program, its maps ranged over in another order. *)
Definition ex_stub_prog' : Program :=
  mkProgram ["example.com/proj"]
    [ex_stub_pkg [ex_Todo; ex_Zero; ex_Last; ex_Sum]]
    [ex_Zero; ex_Sum; ex_Last; ex_Todo] [ex_stub_go].

(** [func H(cb func(int))] with a given body. *)
Definition H_with (cb : Param) (body : list Instruction) : Function :=
  mkFunction "H" (Some "example.com/proj") ex_sig_H [cb] [mkBlock body].

(** ** The call rule in the words of the specification *)

(** The pattern as the specification words it: a word-boundary match on
    [log], [logger], or a [print]-prefixed name, in either case. *)
Definition rxClaimed : Compiled :=
  mkCompiled true
    (Alt (Cat WordBoundary
              (Cat (word "log") (Cat (Opt (word "ger")) WordBoundary)))
         (Cat WordBoundary (word "print"))).

(** The decision at a call instruction as the specification words it. *)
Definition call_rule_claimed (v : Value) (rest : list Instruction) : bool :=
  if MatchString rxClaimed (val_String v) then dummyImpl_from rest
  else bool_decide (val_Name v = "throw").

(** ** More vocabulary *)

(** Every parameter of every function, with its function. *)
Definition parameter_slots (prog : Program) : list Candidate :=
  fn ← AllFunctions prog; (λ par, (fn, par)) <$> fn_Params fn.

(** The instruction decides the scan with [true]. *)
Definition decides_stub (instr : Instruction) : Prop :=
  match instr with
  | Return results => Forall (λ v, val_isConst v = true) results
  | Panic _ => True
  | Call v => ¬ harmless_name (val_String v) ∧ val_Name v = "throw"
  | _ => False
  end.

(** A dependency of [example.com/proj], not requested itself. *)
Definition ex_dep_fn : Function :=
  mkFunction "Helper" (Some "example.com/dep")
    (sig_of [mkVar "n" tInt] []) [mkParam "n" "n" 300 []]
    [mkBlock [Call (val "Exit" "os.Exit"); Return []]].

(** [func (r *T) G(_ int, used string)], [used] being read. *)
Definition ex_method : Function :=
  mkFunction "G" (Some "example.com/proj")
    (mkSignature (Some (mkVar "r" (TPointer (TNamed "example.com/proj.T"
                                               (TStruct [])))))
       [mkVar "_" tInt; mkVar "used" tString] [])
    [mkParam "r" "r" 120 []; mkParam "_" "_" 125 [];
     mkParam "used" "used" 132 [Call (val "Exit" "os.Exit")]]
    [mkBlock [Call (val "Exit" "os.Exit"); Return []]].

(** The end-to-end program with a body for [H] that is no stub:
<<
package main

func F(a int, b int) int { return a }

func G() { log.Println("x") }

func H(cb func(int)) { os.Exit(1) }
>> *)
Definition ex_main_call_go : File :=
  mkFile "/home/u/proj/main.go" 1 120 [0; 13; 14; 52; 53; 83; 84].

Definition ex_H_call : Function :=
  H_with ex_cb [Call (val "Exit" "os.Exit"); Return []].

Definition ex_prog_call : Program :=
  mkProgram ["example.com/proj"] [ex_pkg] [ex_F; ex_G; ex_H_call]
    [ex_main_call_go].

(** The same, next to a dependency that declares
    [type Visitor interface { M(f func(int)) }]. *)
Definition ex_Visitor : GoType :=
  TNamed "example.com/dep.Visitor"
    (TInterface
       [mkVar "M" (TSig (mkSignature (Some (mkVar "" (TBasic "Visitor")))
                           [mkVar "f" (TSig ex_sig_cb)] []))]).

Definition ex_prog_visitor : Program :=
  mkProgram ["example.com/proj"]
    [mkPackage "example.com/dep" [MType "Visitor" ex_Visitor]; ex_pkg]
    [ex_F; ex_G; ex_H_call] [ex_main_call_go].

(** A root package of two files, [b.go] added to the file set before
    [a.go]; in [b.go] and in [a.go]:
<<
package main                       package main

func B(x int) { os.Exit(1) }       func A(y int) { os.Exit(1) }
>> *)
Definition ex_b_go : File := mkFile "/home/u/proj/b.go" 1 43 [0; 13; 14].
Definition ex_a_go : File := mkFile "/home/u/proj/a.go" 45 43 [0; 13; 14].

Definition ex_B : Function :=
  mkFunction "B" (Some "example.com/proj") (sig_of [mkVar "x" tInt] [])
    [mkParam "x" "x" 22 []]
    [mkBlock [Call (val "Exit" "os.Exit"); Return []]].
Definition ex_A : Function :=
  mkFunction "A" (Some "example.com/proj") (sig_of [mkVar "y" tInt] [])
    [mkParam "y" "y" 66 []]
    [mkBlock [Call (val "Exit" "os.Exit"); Return []]].

Definition ex_two_files_prog : Program :=
  mkProgram ["example.com/proj"]
    [mkPackage "example.com/proj"
       [MFunc "A" (fn_Signature ex_A); MFunc "B" (fn_Signature ex_B)]]
    [ex_A; ex_B] [ex_b_go; ex_a_go].

(** The same program, its maps ranged over in another order. *)
Definition ex_two_files_prog' : Program :=
  mkProgram ["example.com/proj"]
    [mkPackage "example.com/proj"
       [MFunc "B" (fn_Signature ex_B); MFunc "A" (fn_Signature ex_A)]]
    [ex_B; ex_A] [ex_b_go; ex_a_go].

(** * Properties *)

Lemma string_app_cons (x : ascii) (a b : string) :
  String x a +:+ b = String x (a +:+ b).
Proof. reflexivity. Qed.

Lemma string_app_nil_l (a : string) : "" +:+ a = a.
Proof. reflexivity. Qed.

Lemma string_app_assoc (a b c : string) : (a +:+ b) +:+ c = a +:+ (b +:+ c).
Proof.
  induction a as [|x a IH]; [done|]. by rewrite !string_app_cons, IH.
Qed.

Lemma string_app_nil_r (a : string) : a +:+ "" = a.
Proof. induction a as [|x a IH]; [done|]. by rewrite string_app_cons, IH. Qed.

(** *** Runs of buffer computations *)

Lemma run_bind {A B} (m : M A) (k : A → M B) buf :
  (m ≫= k) buf = match m buf with Some (a, buf') => k a buf' | None => None end.
Proof. done. Qed.

Lemma run_ret {A} (a : A) buf : (mret a : M A) buf = Some (a, buf).
Proof. done. Qed.

Lemma run_bind_Some {A B} (m : M A) (k : A → M B) buf a buf' :
  m buf = Some (a, buf') → (m ≫= k) buf = k a buf'.
Proof. intros Hm. by rewrite run_bind, Hm. Qed.

(** A loop whose body never panics and computes [g] on the accumulator
    computes the fold of [g]. *)
Lemma foldM_pure {A B} (f : B → A → M B) (g : B → A → B) l :
  (∀ acc x buf, x ∈ l → ∃ buf', f acc x buf = Some (g acc x, buf')) →
  ∀ acc buf, ∃ buf', foldM f acc l buf = Some (foldl g acc l, buf').
Proof.
  induction l as [|x l IH]; intros Hf acc buf; [by eexists|].
  cbn [foldM foldl]. rewrite run_bind.
  destruct (Hf acc x buf) as [buf1 ->]; [left|].
  apply IH. intros acc' y buf' Hy. apply Hf. by right.
Qed.

Lemma separator_run i buf :
  (if decide (0 < i)%nat then WriteString ", " else mret tt) buf =
  Some (tt, buf +:+ (if decide (0 < i)%nat then ", " else "")).
Proof.
  destruct (decide _); [done|]. by rewrite run_ret, string_app_nil_r.
Qed.

Lemma tupleJoin_from_run i t buf :
  tupleJoin_from i t buf =
  Some (tt, buf +:+ (if decide (0 < i ∧ t ≠ [])%nat then ", " else "")
                +:+ join_with TypeString ", " (var_type <$> t)).
Proof.
  revert i buf. induction t as [|v t IH]; intros i buf.
  - cbn [tupleJoin_from fmap list_fmap join_with]. rewrite run_ret.
    destruct (decide _) as [[_ []]|_]; [done|]. by rewrite !string_app_nil_r.
  - cbn [tupleJoin_from].
    rewrite (run_bind_Some _ _ _ _ _ (separator_run i buf)).
    rewrite (run_bind_Some _ _ _ tt (_ +:+ TypeString (var_type v))) by done.
    rewrite IH, !string_app_assoc. do 3 f_equal.
    assert ((if decide (0 < i ∧ v :: t ≠ [])%nat then ", " else "")
            = if decide (0 < i)%nat then ", " else "") as ->.
    { destruct (decide (0 < i)%nat) as [Hi|Hi], (decide (_ ∧ _)) as [[Hj _]|Hj];
        try done; exfalso; first [by apply Hj|by apply Hi]. }
    f_equal. destruct t as [|v' t].
    + destruct (decide _) as [[_ []]|_]; [done|].
      cbn. by rewrite string_app_nil_r.
    + destruct (decide _) as [_|[]]; [done|]. split; [lia|done].
Qed.

Lemma tupleJoin_run t buf : tupleJoin t buf = Some (tt, buf +:+ tuple_text t).
Proof.
  unfold tupleJoin.
  rewrite (run_bind_Some _ _ _ tt (buf +:+ "(")) by done.
  rewrite (run_bind_Some _ _ _ _ _ (tupleJoin_from_run _ _ _)).
  destruct (decide _) as [[? _]|_]; [lia|].
  unfold WriteByte, tuple_text. by rewrite !string_app_assoc.
Qed.

(** [signString] returns the normalized signature whatever the buffer held
    before, and leaves it in the buffer. *)
Lemma signString_run sign buf :
  signString sign buf = Some (normalized sign, normalized sign).
Proof.
  unfold signString.
  rewrite (run_bind_Some _ _ _ tt "") by done.
  rewrite (run_bind_Some _ _ _ _ _ (tupleJoin_run _ _)).
  rewrite (run_bind_Some _ _ _ _ _ (tupleJoin_run _ _)).
  by rewrite string_app_assoc.
Qed.

(** *** The signature catalog *)

Lemma addSign_run sigs t buf :
  ∃ buf', addSign sigs t buf = Some (add_key sigs t, buf').
Proof.
  destruct t as [| | | | | | |sign]; try by eexists.
  unfold addSign, add_key. destruct (decide _); [by eexists|].
  rewrite (run_bind_Some _ _ _ _ _ (signString_run _ _)). by eexists.
Qed.

Lemma addSign_loop_run sigs ts buf :
  ∃ buf', foldM addSign sigs ts buf = Some (foldl add_key sigs ts, buf').
Proof. apply foldM_pure. intros acc t b _. apply addSign_run. Qed.

Lemma addMember_run sigs mb buf :
  ∃ buf', addMember sigs mb buf
          = Some (foldl add_key sigs (member_types mb), buf').
Proof.
  destruct mb as [n sign|n ty|n|n]; cbn [addMember member_types];
    try by eexists.
  - apply addSign_loop_run.
  - destruct (Underlying ty); try (by eexists); try apply addSign_loop_run.
    apply addSign_run.
Qed.

Lemma foldl_bind {A B C} (g : C → B → C) (f : A → list B) (l : list A) acc :
  foldl g acc (l ≫= f) = foldl (λ a x, foldl g a (f x)) acc l.
Proof.
  revert acc. induction l as [|x l IH]; intros acc; [done|].
  cbn [mbind list_bind foldl]. by rewrite foldl_app, IH.
Qed.

Lemma funcSigns_run prog buf :
  ∃ buf', funcSigns prog buf = Some (catalog prog, buf').
Proof.
  unfold funcSigns, catalog, program_types. rewrite foldl_bind.
  apply foldM_pure. intros acc pkg b _. rewrite foldl_bind.
  apply foldM_pure. intros acc' mb b' _. apply addMember_run.
Qed.

Lemma map_get_insert_true (m : gmap string bool) (k k' : string) :
  map_get (<[k := true]> m) k' = true ↔ k = k' ∨ map_get m k' = true.
Proof.
  unfold map_get. destruct (decide (k = k')) as [->|Hne].
  - rewrite lookup_insert_eq. split; [by left|done].
  - rewrite lookup_insert_ne by done. split; [by right|by intros [?|?]].
Qed.

Lemma add_key_spec sigs t k :
  map_get (add_key sigs t) k = true ↔
  contributes t k ∨ map_get sigs k = true.
Proof.
  unfold contributes.
  destruct t as [| | | | | | |sign]; cbn [add_key];
    try (split; [by right|by intros [(?&?&_)|?]]).
  destruct (decide _) as [Hlen|Hlen].
  - apply length_zero_iff_nil in Hlen. split; [by right|].
    intros [(s&[= <-]&?&_)|?]; done.
  - rewrite map_get_insert_true. split.
    + intros [<-|?]; [left|by right]. exists sign. split_and!; [done| |done].
      intros Hp. apply Hlen. by rewrite Hp.
    + intros [(s&[= <-]&_&?)|?]; [by left|by right].
Qed.

Lemma foldl_add_key_spec ts sigs k :
  map_get (foldl add_key sigs ts) k = true ↔
  (∃ t, t ∈ ts ∧ contributes t k) ∨ map_get sigs k = true.
Proof.
  revert sigs. induction ts as [|t ts IH]; intros sigs; cbn [foldl].
  - split; [by right|]. by intros [(t&?%elem_of_nil&_)|?].
  - rewrite IH, add_key_spec. split.
    + intros [(t'&?&?)|[?|?]]; [left|left|by right].
      * exists t'. split; [by right|done].
      * exists t. split; [by left|done].
    + intros [(t'&[->|?]%elem_of_cons&?)|?]; [by right; left| |by right; right].
      left. by exists t'.
Qed.

(** The catalog holds exactly the normalized signatures of the signature
    types with at least one parameter among the types of the program. *)
Lemma catalog_spec prog k :
  map_get (catalog prog) k = true ↔
  ∃ t, t ∈ program_types prog ∧ contributes t k.
Proof.
  unfold catalog. rewrite foldl_add_key_spec. split; [|by left].
  intros [?|?]; [done|]. by unfold map_get in *; rewrite lookup_empty in *.
Qed.

Lemma elem_of_program_types prog t :
  t ∈ program_types prog ↔
  ∃ pkg mb, pkg ∈ AllPackages prog ∧ mb ∈ pkg_Members pkg ∧
            t ∈ member_types mb.
Proof.
  unfold program_types. rewrite list_elem_of_bind. split.
  - intros (pkg&(mb&?&?)%list_elem_of_bind&?). by exists pkg, mb.
  - intros (pkg&mb&?&?&?). exists pkg. split; [|done].
    apply list_elem_of_bind. by exists mb.
Qed.

(** *** The candidates *)

Lemma wantPkg_spec prog pkg :
  map_get (wantPkg prog) pkg = true ↔ pkg ∈ InitialPackages prog.
Proof.
  unfold wantPkg. generalize (InitialPackages prog). intros l.
  assert (∀ m : gmap PkgPath bool,
    map_get (foldl (λ m info, <[info := true]> m) m l) pkg = true
    ↔ pkg ∈ l ∨ map_get m pkg = true) as Hgen.
  { induction l as [|x l IH]; intros m; cbn [foldl].
    - rewrite elem_of_nil. split; [by right|by intros [[]|?]].
    - rewrite IH, map_get_insert_true, elem_of_cons. split.
      + intros [?|[->|?]]; [left; by right|left; by left|by right].
      + intros [[->|?]|?]; [right; by left|by left|right; by right]. }
  rewrite Hgen. split; [|by left].
  intros [?|?]; [done|]. by unfold map_get in *; rewrite lookup_empty in *.
Qed.

Lemma scanParams_acc fn i pars acc :
  scanParams fn i pars acc = acc ++ scanParams fn i pars [].
Proof.
  revert i acc. induction pars as [|par pars IH]; intros i acc;
    cbn [scanParams]; [by rewrite app_nil_r|].
  repeat (destruct (decide _); [apply IH|]).
  rewrite (IH _ (acc ++ _)), (IH _ ([] ++ _)). by rewrite <-app_assoc.
Qed.

Lemma elem_of_scanParams fn i pars c :
  c ∈ scanParams fn i pars [] ↔
  ∃ j par, c = (fn, par) ∧ pars !! j = Some par ∧ kept fn (i + j) par.
Proof.
  revert i. induction pars as [|par pars IH]; intros i; cbn [scanParams].
  { rewrite elem_of_nil. split; [done|]. by intros (j&p&_&?&_). }
  assert ((∃ j p, c = (fn, p) ∧ (par :: pars) !! j = Some p ∧ kept fn (i + j) p)
          ↔ (c = (fn, par) ∧ kept fn i par) ∨
            ∃ j p, c = (fn, p) ∧ pars !! j = Some p ∧ kept fn (S i + j) p)
    as ->.
  { split.
    - intros (j&p&?&Hj&Hk). destruct j as [|j].
      + left. injection Hj as ->. by rewrite Nat.add_0_r in Hk.
      + right. exists j, p. by rewrite Nat.add_succ_r in Hk.
    - intros [[? ?]|(j&p&?&?&?)].
      + exists 0%nat, par. by rewrite Nat.add_0_r.
      + exists (S j), p. by rewrite Nat.add_succ_r. }
  unfold kept at 1.
  destruct (decide (i = 0%nat ∧ _)) as [Hr|Hr].
  { rewrite IH. split; [by right|]. by intros [(_&?&_)|?]. }
  destruct (decide (_ ∨ _)) as [Hn|Hn].
  { rewrite IH. split; [by right|]. intros [(_&_&?&?&_)|?]; [|done].
    by destruct Hn. }
  destruct (decide _) as [Hu|Hu].
  { rewrite IH. split; [by right|]. intros [(_&_&_&_&Hnil)|?]; [|done].
    rewrite Hnil in Hu. cbn in Hu. lia. }
  rewrite app_nil_l, scanParams_acc, elem_of_app, IH, list_elem_of_singleton.
  split.
  - intros [->|?]; [left|by right]. split_and!; try done.
    + intros ?. apply Hn. by left.
    + intros ?. apply Hn. by right.
    + destruct (par_Referrers par); [done|]. cbn in Hu. lia.
  - intros [[-> _]|?]; [by left|by right].
Qed.

Lemma scanFunction_acc want acc fn :
  scanFunction want acc fn = acc ++ function_candidates want fn.
Proof.
  unfold function_candidates, scanFunction.
  destruct (fn_Pkg fn); [|by rewrite app_nil_r].
  destruct (fn_Blocks fn); [by rewrite app_nil_r|].
  destruct (negb _); [by rewrite app_nil_r|].
  destruct (dummyImpl _); [by rewrite app_nil_r|].
  apply scanParams_acc.
Qed.

(** The candidates of the program are those of its functions, in the order
    the functions are visited. *)
Lemma potential_bind prog :
  potential prog = AllFunctions prog ≫= function_candidates (wantPkg prog).
Proof.
  unfold potential. generalize (AllFunctions prog). intros fns.
  rewrite <-(app_nil_l (fns ≫= _)). generalize (@nil Candidate).
  induction fns as [|fn fns IH]; intros acc; cbn [foldl].
  - by rewrite app_nil_r.
  - rewrite IH, scanFunction_acc, bind_cons. by rewrite <-app_assoc.
Qed.

Lemma elem_of_function_candidates prog fn c :
  c ∈ function_candidates (wantPkg prog) fn ↔
  scanned prog fn ∧ ∃ i par, c = (fn, par) ∧ fn_Params fn !! i = Some par ∧
                             kept fn i par.
Proof.
  unfold function_candidates, scanFunction, scanned.
  destruct (fn_Pkg fn) as [pkg|];
    [|rewrite elem_of_nil; split; [done|by intros [(?&?&?&?&_) _]]].
  destruct (fn_Blocks fn) as [|blk rest];
    [rewrite elem_of_nil; split; [done|by intros [(?&?&?&_&_&?&_) _]]|].
  destruct (map_get (wantPkg prog) pkg) eqn:Hw; cbn [negb].
  - apply wantPkg_spec in Hw. destruct (dummyImpl blk) eqn:Hd.
    + rewrite elem_of_nil. split; [done|].
      intros [(?&?&?&_&_&[= <- <-]&Hd') _]. congruence.
    + rewrite elem_of_scanParams. split.
      * intros (j&par&?&?&?). split; [by exists pkg, blk, rest|].
        by exists j, par.
      * intros [_ (j&par&?&?&?)]. by exists j, par.
  - rewrite elem_of_nil. split; [done|].
    intros [(?&?&?&[= <-]&Hin&_) _]. apply wantPkg_spec in Hin. congruence.
Qed.

(** Which parameters become candidates. *)
Lemma elem_of_potential prog fn par :
  (fn, par) ∈ potential prog ↔
  fn ∈ AllFunctions prog ∧ scanned prog fn ∧
  ∃ i, fn_Params fn !! i = Some par ∧ kept fn i par.
Proof.
  rewrite potential_bind, list_elem_of_bind. split.
  - intros (fn'&(?&i&p&[= <- <-]&?&?)%elem_of_function_candidates&?).
    split_and!; [done..|]. by exists i.
  - intros (?&?&i&?&?). exists fn. split; [|done].
    apply elem_of_function_candidates. split; [done|]. by exists i, par.
Qed.

(** *** Sorting *)

Section sorting.
Context {A : Type} (key : A → Z).

Let less (a b : A) : bool := bool_decide (key a < key b).
Let le (a b : A) : Prop := key a ≤ key b.

Lemma sort_insert_perm x l : sort_insert less x l ≡ₚ x :: l.
Proof.
  induction l as [|y l IH]; cbn [sort_insert]; [done|].
  destruct (less y x); [|done]. by rewrite IH, Permutation_swap.
Qed.

Lemma sort_Slice_perm l : sort_Slice less l ≡ₚ l.
Proof.
  induction l as [|x l IH]; [done|]. cbn [sort_Slice foldr].
  rewrite sort_insert_perm. by f_equiv.
Qed.

Lemma sort_insert_sorted x l :
  StronglySorted le l → StronglySorted le (sort_insert less x l).
Proof.
  induction 1 as [|y l Hl IH Hy]; cbn [sort_insert].
  { repeat constructor. }
  unfold less at 1. case_bool_decide as Hlt.
  - constructor; [done|]. rewrite sort_insert_perm.
    constructor; [unfold le; lia|done].
  - constructor; [by constructor|]. constructor; [unfold le; lia|].
    eapply Forall_impl; [done|]. unfold le. intros z ?. lia.
Qed.

Lemma sort_Slice_sorted l : StronglySorted le (sort_Slice less l).
Proof.
  induction l as [|x l IH]; [constructor|]. by apply sort_insert_sorted.
Qed.

(** Two lists ordered by key with the same elements and no key twice
    are the same list. *)
Lemma sorted_unique l1 l2 :
  StronglySorted le l1 → StronglySorted le l2 →
  NoDup (key <$> l1) → l1 ≡ₚ l2 → l1 = l2.
Proof.
  intros Hs1. revert l2.
  induction Hs1 as [|x l1 Hs1 IH Hx]; intros l2 Hs2 Hnd Hp.
  { by apply Permutation_nil_l in Hp. }
  destruct Hs2 as [|y l2 Hs2 Hy]; [by apply Permutation_nil_r in Hp|].
  apply NoDup_cons in Hnd as [Hnx Hnd].
  assert (x = y) as <-.
  { assert (x ∈ y :: l2) as [?|Hxl]%elem_of_cons by (rewrite <-Hp; left);
      [done|].
    assert (y ∈ x :: l1) as [?|Hyl]%elem_of_cons by (rewrite Hp; left);
      [done|].
    rewrite Forall_forall in Hx, Hy.
    specialize (Hx _ Hyl). specialize (Hy _ Hxl). unfold le in *.
    exfalso. apply Hnx. replace (key x) with (key y) by lia.
    by apply list_elem_of_fmap_2. }
  f_equal. apply IH; [done..|]. by apply (inj (x ::.)).
Qed.
End sorting.

Lemma sorted_potential_perm prog :
  sort_Slice lessPos (potential prog) ≡ₚ potential prog.
Proof. apply (sort_Slice_perm posKey). Qed.

Lemma sorted_potential_sorted prog :
  StronglySorted (λ a b, posKey a ≤ posKey b)
                 (sort_Slice lessPos (potential prog)).
Proof. apply (sort_Slice_sorted posKey). Qed.

(** *** From the run to the reported candidates *)

Lemma warn_run wd fset sigs warns c buf :
  warn wd fset sigs warns c buf =
  if map_get sigs (normalized (fn_Signature c.1))
  then Some (warns, normalized (fn_Signature c.1))
  else (λ w, (warns ++ [w], normalized (fn_Signature c.1)))
       <$> warning wd fset c.
Proof.
  destruct c as [parent par]. unfold warn, warning, position_line, relative.
  rewrite (run_bind_Some _ _ _ _ _ (signString_run _ _)). cbn [fst snd].
  destruct (map_get _ _); [done|].
  rewrite run_bind. destruct (String.prefix _ _); [|done].
  by destruct (slice_from _ _).
Qed.

Lemma warn_loop wd fset sigs l warns buf :
  eval (foldM (warn wd fset sigs) warns l) buf =
  (warns ++.) <$> mapM (warning wd fset) (filter (uncatalogued sigs) l).
Proof.
  revert warns buf. induction l as [|c l IH]; intros warns buf.
  { cbn. by rewrite app_nil_r. }
  cbn [foldM]. unfold eval. rewrite run_bind, warn_run.
  destruct (map_get sigs _) eqn:Hc.
  - rewrite filter_cons_False by (unfold uncatalogued; congruence). apply IH.
  - rewrite filter_cons_True by done. cbn [mapM].
    destruct (warning wd fset c) as [w|]; [|done].
    cbn [fmap option_fmap option_map].
    fold (eval (foldM (warn wd fset sigs) (warns ++ [w]) l)
               (normalized (fn_Signature c.1))).
    rewrite IH. cbn [mbind option_bind].
    destruct (mapM _ _); [|done]. cbn. by rewrite <-app_assoc.
Qed.

(** The run prints the warnings of the reported candidates, in their
    order, whatever the buffer held; it panics when one of them does. *)
Lemma unusedParams_eval wd prog buf :
  eval (unusedParams wd prog) buf
  = mapM (warning wd (Fset prog)) (reported prog).
Proof.
  unfold unusedParams, eval. destruct (funcSigns_run prog buf) as [buf' Hf].
  rewrite (run_bind_Some _ _ _ _ _ Hf).
  fold (eval (foldM (warn wd (Fset prog) (catalog prog)) []
                    (sort_Slice lessPos (potential prog))) buf').
  rewrite warn_loop. unfold reported.
  by destruct (mapM _ _).
Qed.

Lemma elem_of_reported prog c :
  c ∈ reported prog ↔ c ∈ potential prog ∧ uncatalogued (catalog prog) c.
Proof.
  unfold reported. rewrite list_elem_of_filter, sorted_potential_perm.
  unfold uncatalogued. tauto.
Qed.

Lemma reported_sorted prog :
  StronglySorted (λ a b, posKey a ≤ posKey b) (reported prog).
Proof.
  unfold reported. generalize (sorted_potential_sorted prog).
  generalize (sort_Slice lessPos (potential prog)). intros l.
  induction 1 as [|x l Hl IH Hx]; [constructor|].
  rewrite filter_cons. destruct (decide _); [|done].
  constructor; [done|]. apply Forall_forall.
  intros y [_ Hy]%list_elem_of_filter.
  rewrite Forall_forall in Hx. by apply Hx.
Qed.

(** The warnings of a completed run line up with the reported candidates. *)
Lemma unusedParams_Some wd prog buf ws :
  eval (unusedParams wd prog) buf = Some ws ↔
  Forall2 (λ c w, warning wd (Fset prog) c = Some w) (reported prog) ws.
Proof. rewrite unusedParams_eval. apply mapM_Some. Qed.

(** *** The harmless-call pattern *)

Lemma last_char_app prev a b :
  last_char prev (a +:+ b) = last_char (last_char prev a) b.
Proof.
  revert prev. induction a as [|x a IH]; intros prev; [done|].
  rewrite string_app_cons. cbn [last_char]. apply IH.
Qed.

Lemma lower_app a b : lower (a +:+ b) = lower a +:+ lower b.
Proof.
  induction a as [|x a IH]; [done|].
  rewrite string_app_cons. cbn [lower]. by rewrite string_app_cons, IH.
Qed.

Lemma lower_nil_inv u : lower u = "" → u = "".
Proof. by destruct u. Qed.

Lemma rsearch_spec fc r prev s :
  rsearch fc r prev s = true ↔
  ∃ pre post, s = pre +:+ post ∧
              rmatch fc r (last_char prev pre) post (λ _ _, true) = true.
Proof.
  revert prev. induction s as [|c s IH]; intros prev; cbn [rsearch].
  - rewrite orb_false_r. split.
    + intros ?. by exists "", "".
    + intros ([|??]&post&Hs&?); [|done].
      rewrite string_app_nil_l in Hs. by subst post.
  - rewrite orb_true_iff, IH. split.
    + intros [?|(pre&post&->&?)].
      * by exists "", (String c s).
      * by exists (String c pre), post.
    + intros ([|x pre]&post&Hs&?).
      * left. rewrite string_app_nil_l in Hs. by subst post.
      * right. rewrite string_app_cons in Hs. injection Hs as -> ->.
        by exists pre, post.
Qed.

(** Matching the letters of [w], in either case. *)
Lemma rmatch_word w prev s k :
  rmatch true (word w) prev s k = true ↔
  ∃ u rest, s = u +:+ rest ∧ lower u = lower w ∧
            k (last_char prev u) rest = true.
Proof.
  revert prev s. induction w as [|c w IH]; intros prev s; cbn [word rmatch].
  - split.
    + intros ?. by exists "", s.
    + intros (u&rest&->&->%lower_nil_inv&?). done.
  - destruct s as [|x s].
    { split; [done|]. intros ([|??]&rest&Hs&Hl&_); [done|].
      by rewrite string_app_cons in Hs. }
    destruct (Ascii.eqb_spec (to_lower c) (to_lower x)) as [Hcx|Hcx].
    + rewrite IH. split.
      * intros (u&rest&->&Hl&?). exists (String x u), rest.
        split_and!; [done| |done]. cbn [lower]. by rewrite Hl, Hcx.
      * intros ([|y u]&rest&Hs&Hl&?); [done|].
        rewrite string_app_cons in Hs. injection Hs as -> ->.
        injection Hl as _ Hl. by exists u, rest.
    + split; [done|]. intros ([|y u]&rest&Hs&Hl&_); [done|].
      rewrite string_app_cons in Hs. injection Hs as -> ->.
      injection Hl as Hl _. by destruct Hcx.
Qed.

Lemma is_word_lower x : is_word_char (to_lower x) = is_word_char x.
Proof. by destruct x as [[] [] [] [] [] [] [] []]. Qed.

Lemma is_word_last_lower prev u :
  u ≠ "" → is_word (last_char prev u) = is_word (last_char prev (lower u)).
Proof.
  revert prev. induction u as [|x u IH]; intros prev Hu; [done|].
  cbn [last_char lower]. destruct u as [|y u].
  - cbn. by rewrite is_word_lower.
  - rewrite IH by done. by cbn.
Qed.

Lemma is_word_head_lower u rest :
  u ≠ "" →
  is_word (string_head (u +:+ rest)) = is_word (string_head (lower u)).
Proof.
  destruct u as [|x u]; [done|]. intros _.
  rewrite string_app_cons. cbn. by rewrite is_word_lower.
Qed.

Lemma lower_cons_inv u c v :
  lower u = String c v →
  ∃ x u', u = String x u' ∧ to_lower x = c ∧ lower u' = v.
Proof.
  destruct u as [|x u]; [done|]. cbn [lower]. intros [= <- <-].
  by exists x, u.
Qed.

Lemma if_true_iff (b x : bool) :
  (if b then x else false) = true ↔ b = true ∧ x = true.
Proof. destruct b, x; split; (done || by intros [? ?]). Qed.

Lemma rmatch_lit c prev s k :
  rmatch true (Lit c) prev s k = rmatch true (word (String c "")) prev s k.
Proof. done. Qed.

Lemma rmatch_Alt fc r1 r2 prev s k :
  rmatch fc (Alt r1 r2) prev s k
  = rmatch fc r1 prev s k || rmatch fc r2 prev s k.
Proof. done. Qed.

Lemma rmatch_Cat fc r1 r2 prev s k :
  rmatch fc (Cat r1 r2) prev s k
  = rmatch fc r1 prev s (λ p s', rmatch fc r2 p s' k).
Proof. done. Qed.

Lemma rmatch_Opt fc r prev s k :
  rmatch fc (Opt r) prev s k = rmatch fc r prev s k || k prev s.
Proof. done. Qed.

Lemma rmatch_WordBoundary fc prev s k :
  rmatch fc WordBoundary prev s k
  = if xorb (is_word prev) (is_word (string_head s)) then k prev s else false.
Proof. done. Qed.

(** The end of [\blog(ger)?\b] after [log] has been read. *)
Lemma log_tail_at p rest :
  is_word p = true →
  rmatch true (Cat (Opt (word "ger")) WordBoundary) p rest (λ _ _, true) = true
  ↔ at_word_end rest ∨
    ∃ u rest', rest = u +:+ rest' ∧ lower u = "ger" ∧ at_word_end rest'.
Proof.
  intros Hp. rewrite rmatch_Cat, rmatch_Opt. cbv beta.
  rewrite orb_true_iff, rmatch_word, rmatch_WordBoundary, Hp.
  unfold at_word_end. split.
  - intros [(u&rest'&->&Hu&Hk)|Hk].
    + right. exists u, rest'. split_and!; [done..|].
      rewrite rmatch_WordBoundary in Hk.
      rewrite is_word_last_lower, Hu in Hk by (by intros ->).
      by destruct (is_word (string_head rest')).
    + left. by destruct (is_word (string_head rest)).
  - intros [->|(u&rest'&->&Hu&He)]; [by right|left].
    exists u, rest'. split_and!; [done..|].
    rewrite rmatch_WordBoundary, is_word_last_lower, Hu by (by intros ->).
    by rewrite He.
Qed.

(** The pattern matched at one place of the text: [prev] before it,
    [post] from it on. *)
Lemma harmless_at prev post :
  rmatch true (rx_expr rxHarmlessCall) prev post (λ _ _, true) = true ↔
  is_word prev = false ∧
  ∃ w rest, post = w +:+ rest ∧
    ((lower w = "log" ∨ lower w = "logger") ∧ at_word_end rest ∨
     lower w = "print" ∨ lower w = "fprint").
Proof.
  unfold rxHarmlessCall. cbn [rx_expr].
  rewrite rmatch_Alt, !(rmatch_Cat _ WordBoundary), !rmatch_WordBoundary.
  cbv beta.
  rewrite (rmatch_Cat _ (word "log")), (rmatch_Cat _ (Opt (Lit "f"))).
  rewrite rmatch_Opt, rmatch_lit. cbv beta.
  rewrite orb_true_iff, !if_true_iff, orb_true_iff, !rmatch_word.
  split.
  - intros [[Hb (u&rest&->&Hu&Hk)]|[Hb [(u&rest&->&Hu&Hk)|(u&rest&->&Hu&_)]]];
      rewrite is_word_head_lower, Hu in Hb by (by intros ->);
      (split; [by destruct (is_word prev)|]).
    + apply log_tail_at in Hk;
        [|by rewrite is_word_last_lower, Hu by (by intros ->)].
      destruct Hk as [He|(u2&rest2&->&Hu2&He)].
      * exists u, rest. split; [done|]. left. split; [by left|done].
      * exists (u +:+ u2), rest2. rewrite string_app_assoc. split; [done|].
        left. rewrite lower_app, Hu, Hu2. split; [by right|done].
    + apply rmatch_word in Hk as (u2&rest2&->&Hu2&_).
      exists (u +:+ u2), rest2. rewrite string_app_assoc. split; [done|].
      right. right. by rewrite lower_app, Hu, Hu2.
    + exists u, rest. split; [done|]. by right; left.
  - intros [Hp (w&rest&->&[[[Hw|Hw] He]|[Hw|Hw]])];
      rewrite is_word_head_lower, Hw, Hp by (by intros ->).
    + left. split; [done|]. exists w, rest. split_and!; [done..|].
      apply log_tail_at; [|by left].
      by rewrite is_word_last_lower, Hw by (by intros ->).
    + left. split; [done|].
      apply lower_cons_inv in Hw as (x1&w1&->&H1&Hw).
      apply lower_cons_inv in Hw as (x2&w2&->&H2&Hw).
      apply lower_cons_inv in Hw as (x3&w3&->&H3&Hw).
      exists (String x1 (String x2 (String x3 ""))), (w3 +:+ rest).
      split_and!; [done| |].
      { cbn [lower]. by rewrite H1, H2, H3. }
      apply log_tail_at.
      { rewrite (is_word_last_lower _ (String x1 _)) by done.
        cbn [lower]. by rewrite H1, H2, H3. }
      right. by exists w3, rest.
    + right. split; [done|]. right. by exists w, rest.
    + right. split; [done|]. left.
      apply lower_cons_inv in Hw as (x1&w1&->&H1&Hw).
      exists (String x1 ""), (w1 +:+ rest).
      split_and!; [done|by cbn [lower]; rewrite H1|].
      apply rmatch_word. by exists w1, rest.
Qed.

(** [rxHarmlessCall] matches exactly the harmless names. *)
Lemma rxHarmlessCall_spec s :
  MatchString rxHarmlessCall s = true ↔ harmless_name s.
Proof.
  unfold MatchString, harmless_name. rewrite rsearch_spec. split.
  - intros (pre&post&->&(Hp&w&rest&->&Hw)%harmless_at).
    by exists pre, w, rest.
  - intros (pre&w&post&->&Hp&Hw). exists pre, (w +:+ post).
    split; [done|]. apply harmless_at. split; [done|]. by exists w, post.
Qed.

(** *** The stub detector *)

Lemma dummyImpl_from_passed pre l :
  Forall passed pre → dummyImpl_from (pre ++ l) = dummyImpl_from l.
Proof.
  induction 1 as [|instr pre Hi _ IH]; [done|].
  cbn [app dummyImpl_from]. destruct Hi as [Hs|(v&->&Hv)].
  - by destruct instr.
  - apply rxHarmlessCall_spec in Hv. by rewrite Hv.
Qed.

Lemma dummyImpl_from_Call v rest :
  dummyImpl_from (Call v :: rest) =
  if MatchString rxHarmlessCall (val_String v) then dummyImpl_from rest
  else bool_decide (val_Name v = "throw").
Proof. done. Qed.

(** A function with a dummy entry block contributes no candidate. *)
Lemma dummy_not_reported prog fn par blk rest :
  fn_Blocks fn = blk :: rest → dummyImpl blk = true →
  (fn, par) ∉ reported prog.
Proof.
  intros Hb Hd [Hp _]%elem_of_reported.
  apply elem_of_potential in Hp as (_&(pkg&blk'&rest'&_&_&Hb'&Hd')&_).
  congruence.
Qed.

(** *** Positions *)

Lemma searchFiles_lookup fs p i f :
  searchFiles fs p = Some (i, f) → fs !! i = Some f.
Proof.
  revert i. induction fs as [|g fs IH]; intros i; cbn [searchFiles]; [done|].
  destruct (decide _); [|done].
  destruct (searchFiles fs p) as [[j h]|] eqn:Hs.
  - intros [= <- <-]. by apply IH.
  - by intros [= <- <-].
Qed.

Lemma searchFiles_mono fs p q i f j g :
  p ≤ q → searchFiles fs p = Some (i, f) → searchFiles fs q = Some (j, g) →
  (i ≤ j)%nat.
Proof.
  intros Hpq. revert i j. induction fs as [|h fs IH]; intros i j;
    cbn [searchFiles]; [done|].
  destruct (decide (file_base h ≤ p)); [|done].
  destruct (decide (file_base h ≤ q)); [|lia].
  destruct (searchFiles fs p) as [[i' f']|] eqn:Hp;
    destruct (searchFiles fs q) as [[j' g']|] eqn:Hq;
    intros [= <- <-] [= <- <-]; try lia.
  - specialize (IH _ _ eq_refl eq_refl). lia.
  - exfalso. clear IH. revert i' Hp Hq.
    induction fs as [|h' fs IH]; intros i'; cbn [searchFiles]; [done|].
    destruct (decide (file_base h' ≤ p)); [|done].
    destruct (decide (file_base h' ≤ q)); [|lia].
    by destruct (searchFiles fs q) as [[??]|].
Qed.

Lemma searchInts_lookup a x i v :
  searchInts a x = Some (i, v) → a !! i = Some v.
Proof.
  revert i. induction a as [|y a IH]; intros i; cbn [searchInts]; [done|].
  destruct (decide _); [|done].
  destruct (searchInts a x) as [[j w]|] eqn:Hs.
  - intros [= <- <-]. by apply IH.
  - by intros [= <- <-].
Qed.

Lemma searchInts_None_mono a x y :
  x ≤ y → searchInts a y = None → searchInts a x = None.
Proof.
  intros Hxy. destruct a as [|z a]; [done|]. cbn [searchInts].
  destruct (decide (z ≤ y)).
  - by destruct (searchInts a y) as [[??]|].
  - intros _. by rewrite decide_False by lia.
Qed.

Lemma searchInts_mono a x y i v j w :
  x ≤ y → searchInts a x = Some (i, v) → searchInts a y = Some (j, w) →
  (i ≤ j)%nat.
Proof.
  intros Hxy. revert i j. induction a as [|z a IH]; intros i j;
    cbn [searchInts]; [done|].
  destruct (decide (z ≤ x)); [|done].
  destruct (decide (z ≤ y)); [|lia].
  destruct (searchInts a x) as [[i' v']|] eqn:Hx;
    destruct (searchInts a y) as [[j' w']|] eqn:Hy;
    intros [= <- <-] [= <- <-]; try lia.
  - specialize (IH _ _ eq_refl eq_refl). lia.
  - by rewrite (searchInts_None_mono a x y) in Hx.
Qed.

Lemma fset_file_Some fs p i f :
  fset_file fs p = Some (i, f) → searchFiles fs p = Some (i, f).
Proof.
  unfold fset_file. destruct (searchFiles fs p) as [[j g]|]; [|done].
  by destruct (decide _).
Qed.

(** A later [token.Pos] is never earlier by file, line and column. *)
Lemma source_key_mono fset p q :
  located fset p → located fset q → p ≤ q →
  ¬ key_lt (source_key fset q) (source_key fset p).
Proof.
  intros [Hp [[i f] Hf]] [Hq [[j g] Hg]] Hpq.
  unfold source_key, fset_Position.
  rewrite !decide_False, Hf, Hg by done. cbn [from_option fst snd].
  apply fset_file_Some in Hf, Hg.
  pose proof (searchFiles_mono _ _ _ _ _ _ _ Hpq Hf Hg) as Hij.
  unfold key_lt. cbn [fst snd]. intros [?|[-> Hlt]]; [lia|].
  apply searchFiles_lookup in Hf, Hg. assert (f = g) as <- by congruence.
  clear Hij Hf Hg. unfold file_position in Hlt.
  assert (p - file_base f ≤ q - file_base f) as Ho by lia.
  destruct (searchInts (file_lines f) (p - file_base f)) as [[a v]|] eqn:Ha;
    destruct (searchInts (file_lines f) (q - file_base f)) as [[b w]|] eqn:Hb;
    cbn [Line Column] in Hlt.
  - pose proof (searchInts_mono _ _ _ _ _ _ _ Ho Ha Hb).
    destruct Hlt as [?|[Hab ?]]; [lia|].
    assert (a = b) as <- by lia.
    apply searchInts_lookup in Ha, Hb. assert (v = w) by congruence. lia.
  - by rewrite (searchInts_None_mono _ _ _ Ho Hb) in Ha.
  - lia.
  - lia.
Qed.

(** *** One program model, two enumerations *)

Lemma same_model_refl p : same_model p p.
Proof.
  split; try done. exists (AllPackages p). split; [done|].
  apply Forall2_same_length_lookup. split; [done|].
  intros i a b ??. by simplify_eq.
Qed.

Lemma same_model_types p q t :
  same_model p q → t ∈ program_types p ↔ t ∈ program_types q.
Proof.
  intros [_ (ps'&Hperm&Hall) _ _]. rewrite !elem_of_program_types. split.
  - intros (pkg&mb&Hpkg&Hmb&Ht). rewrite Hperm in Hpkg.
    apply list_elem_of_lookup in Hpkg as [i Hi].
    destruct (Forall2_lookup_l _ _ _ _ _ Hall Hi) as (pkg'&Hi'&_&Hm).
    exists pkg', mb. split_and!; [by eapply list_elem_of_lookup_2| |done].
    by rewrite <-Hm.
  - intros (pkg&mb&Hpkg&Hmb&Ht).
    apply list_elem_of_lookup in Hpkg as [i Hi].
    destruct (Forall2_lookup_r _ _ _ _ _ Hall Hi) as (pkg'&Hi'&_&Hm).
    exists pkg', mb. split_and!; [|by rewrite Hm|done].
    rewrite Hperm. by eapply list_elem_of_lookup_2.
Qed.

Lemma bool_eq_true_iff (a b : bool) : (a = true ↔ b = true) → a = b.
Proof. destruct a, b; intros [??]; auto. by symmetry; auto. Qed.

Lemma same_model_catalog p q k :
  same_model p q → map_get (catalog p) k = map_get (catalog q) k.
Proof.
  intros H. apply bool_eq_true_iff. rewrite !catalog_spec.
  split; intros (t&?&?); exists t; (split; [|done]);
    by apply (same_model_types p q t H).
Qed.

Lemma same_model_want p q k :
  same_model p q → map_get (wantPkg p) k = map_get (wantPkg q) k.
Proof.
  intros [Hi _ _ _]. apply bool_eq_true_iff. by rewrite !wantPkg_spec, Hi.
Qed.

Lemma function_candidates_ext want want' fn :
  (∀ k, map_get want k = map_get want' k) →
  function_candidates want fn = function_candidates want' fn.
Proof.
  intros H. unfold function_candidates, scanFunction.
  destruct (fn_Pkg fn); [|done]. by rewrite H.
Qed.

Lemma same_model_potential p q :
  same_model p q → potential p ≡ₚ potential q.
Proof.
  intros H. rewrite !potential_bind.
  rewrite (list_bind_ext (function_candidates (wantPkg p))
             (function_candidates (wantPkg q)) _ (AllFunctions p)); [|..|done].
  - by rewrite (same_functions _ _ H).
  - intros fn. apply function_candidates_ext. intros k.
    by apply same_model_want.
Qed.

(** When no two candidates share a position, the reported candidates do
    not depend on the enumeration. *)
Lemma same_model_reported p q :
  same_model p q → NoDup (posKey <$> potential p) →
  reported p = reported q.
Proof.
  intros H Hnd. unfold reported.
  rewrite (sorted_unique posKey (sort_Slice lessPos (potential p))
                                (sort_Slice lessPos (potential q))).
  - apply list_filter_iff. intros c. unfold uncatalogued.
    by rewrite (same_model_catalog p q _ H).
  - apply sorted_potential_sorted.
  - apply sorted_potential_sorted.
  - by rewrite sorted_potential_perm.
  - rewrite !sorted_potential_perm. by apply same_model_potential.
Qed.

(** *** Declarations and the catalog *)

Lemma elem_of_member_types mb t : t ∈ member_types mb ↔ declares mb t.
Proof.
  split.
  - destruct mb as [n sign|n ty|n|n]; cbn [member_types];
      try by intros ?%elem_of_nil.
    + intros (v&->&?)%list_elem_of_fmap. by constructor.
    + destruct (Underlying ty) eqn:Hu; try by intros ?%elem_of_nil.
      * intros (v&->&?)%list_elem_of_fmap. by econstructor.
      * intros (v&->&?)%list_elem_of_fmap. by eapply declares_method.
      * intros ->%list_elem_of_singleton. by constructor.
  - intros [n sign v Hv|n ty fs v Hu Hv|n ty ms m Hu Hm|n ty sign Hu];
      cbn [member_types]; rewrite ?Hu.
    + by apply list_elem_of_fmap_2.
    + by apply list_elem_of_fmap_2.
    + by apply list_elem_of_fmap_2.
    + by apply list_elem_of_singleton.
Qed.

Lemma catalog_catalogued prog k :
  map_get (catalog prog) k = true ↔ catalogued prog k.
Proof.
  rewrite catalog_spec. unfold catalogued, contributes. split.
  - intros (t&(pkg&mb&?&?&Ht)%elem_of_program_types&sign&->&?&?).
    exists pkg, mb, sign. by rewrite <-elem_of_member_types.
  - intros (pkg&mb&sign&?&?&Hd&?&?). exists (TSig sign). split.
    + apply elem_of_program_types. exists pkg, mb.
      by rewrite elem_of_member_types.
    + by exists sign.
Qed.

Lemma uncatalogued_spec prog c :
  uncatalogued (catalog prog) c ↔
  ¬ catalogued prog (normalized (fn_Signature c.1)).
Proof.
  unfold uncatalogued. rewrite <-catalog_catalogued.
  by destruct (map_get _ _).
Qed.

(** The map [unusedParams] reads is the catalog. *)
Lemma funcSigns_catalogued prog buf :
  ∃ sigs buf', funcSigns prog buf = Some (sigs, buf') ∧
               ∀ k, map_get sigs k = true ↔ catalogued prog k.
Proof.
  destruct (funcSigns_run prog buf) as [buf' H].
  exists (catalog prog), buf'. split; [done|]. apply catalog_catalogued.
Qed.

(** *** When the run completes *)

Lemma slice_from_is_Some n s :
  (n ≤ String.length s)%nat → is_Some (slice_from n s).
Proof.
  revert s. induction n as [|n IH]; intros s Hn; [by eexists|].
  destruct s as [|c s]; cbn in Hn; [lia|]. cbn [slice_from]. apply IH. lia.
Qed.

Lemma prefix_shorter wd line :
  String.prefix wd line = true → line ≠ wd →
  (String.length wd + 1 ≤ String.length line)%nat.
Proof.
  revert line. induction wd as [|c wd IH]; intros [|d line];
    cbn [String.prefix String.length]; try done.
  - intros _ _. lia.
  - destruct (ascii_dec c d) as [->|]; [|done].
    intros Hp Hne. assert (line ≠ wd) as Hne' by (intros ->; done).
    specialize (IH line Hp Hne'). lia.
Qed.

Lemma warning_is_Some wd fset c :
  position_line fset c ≠ wd → is_Some (warning wd fset c).
Proof.
  intros Hne. unfold warning, relative.
  destruct (String.prefix _ _) eqn:Hp; [|by cbn; eexists].
  destruct (slice_from_is_Some (String.length wd + 1) (position_line fset c))
    as [line ->]; [by apply prefix_shorter|]. by cbn; eexists.
Qed.

(** A reported candidate is warned about when the run stays in range. *)
Lemma reported_warned wd prog buf c :
  wd_fits wd prog → c ∈ reported prog →
  ∃ ws w, eval (unusedParams wd prog) buf = Some ws ∧
          warning wd (Fset prog) c = Some w ∧ w ∈ ws.
Proof.
  intros Hfit Hc.
  assert (is_Some (mapM (warning wd (Fset prog)) (reported prog))) as [ws Hws].
  { apply mapM_is_Some_2, Forall_forall. intros c' [Hc' _]%elem_of_reported.
    apply warning_is_Some. unfold wd_fits in Hfit.
    rewrite Forall_forall in Hfit. by apply Hfit. }
  exists ws. rewrite unusedParams_eval, Hws.
  apply mapM_Some in Hws. apply list_elem_of_lookup in Hc as [i Hi].
  destruct (Forall2_lookup_l _ _ _ _ _ Hws Hi) as (w&Hw&?).
  exists w. split_and!; [done..|]. by eapply list_elem_of_lookup_2.
Qed.

(** A kept parameter of a scanned function whose signature is not in the
    catalog is reported. *)
Lemma kept_reported prog fn i par :
  fn ∈ AllFunctions prog → scanned prog fn →
  fn_Params fn !! i = Some par → kept fn i par →
  ¬ catalogued prog (normalized (fn_Signature fn)) →
  (fn, par) ∈ reported prog.
Proof.
  intros ?????. apply elem_of_reported. split.
  - apply elem_of_potential. split_and!; [done..|]. by exists i.
  - by apply uncatalogued_spec.
Qed.

(** * The properties of the specification *)

(** ** The exclusion of used parameters *)

Lemma reported_unused prog c : c ∈ reported prog → par_Referrers c.2 = [].
Proof.
  destruct c as [fn par].
  intros [(_&_&i&_&(_&_&_&?))%elem_of_potential _]%elem_of_reported. done.
Qed.

(** C1 — soundness of the "used" exclusion.  A parameter with a referrer
    is not among the reported candidates of any function, and the
    warnings of a completed run are, one for one and in order, those of
    the reported candidates, each a parameter without referrers. *)
Theorem used_parameter_not_warned wd prog buf ws fn par :
  par_Referrers par ≠ [] →
  eval (unusedParams wd prog) buf = Some ws →
  ((fn, par) ∉ reported prog) ∧
  Forall2 (λ c w, warning wd (Fset prog) c = Some w ∧ par_Referrers c.2 = [])
          (reported prog) ws.
Proof.
  intros Hused Hrun. split.
  - by intros ?%reported_unused.
  - apply unusedParams_Some in Hrun.
    apply Forall2_same_length_lookup. split; [by eapply Forall2_length|].
    intros i c w Hc Hw. split.
    + by apply (Forall2_lookup_lr _ _ _ _ _ _ Hrun Hc Hw).
    + eapply reported_unused, list_elem_of_lookup_2, Hc.
Qed.

Lemma used_parameter_not_warned_witness :
  ((ex_F, ex_a) ∉ reported ex_prog) ∧
  Forall2 (λ c w, warning "/home/u/proj" (Fset ex_prog) c = Some w ∧
                  par_Referrers c.2 = [])
          (reported ex_prog) ["main.go:3:15: b is unused"].
Proof.
  apply (used_parameter_not_warned "/home/u/proj" ex_prog ""
           ["main.go:3:15: b is unused"] ex_F ex_a).
  - discriminate.
  - vm_compute. reflexivity.
Defined.

(** ** Stubs *)

(** C2 — stub suppression.  A function whose entry block is a return of
    one constant, or a panic (on its operand, boxed or not), has no
    reported parameter.  An entry block that computes a value and returns
    it is not a dummy implementation: a kept parameter of such a function
    in a wanted package is warned about when the signature of the function
    is not in the catalog and the run stays in range. *)
Theorem stub_suppression :
  (∀ prog fn blk rest c par,
     fn_Blocks fn = blk :: rest → Instrs blk = [Return [c]] →
     val_isConst c = true → (fn, par) ∉ reported prog) ∧
  (∀ prog fn blk rest x par,
     fn_Blocks fn = blk :: rest →
     Instrs blk = [Panic x] ∨ Instrs blk = [MakeInterface; Panic x] →
     (fn, par) ∉ reported prog) ∧
  (∀ wd prog buf fn pkg blk rest v i par,
     fn_Blocks fn = blk :: rest → Instrs blk = [BinOp; Return [v]] →
     val_isConst v = false →
     fn ∈ AllFunctions prog → fn_Pkg fn = Some pkg →
     pkg ∈ InitialPackages prog →
     fn_Params fn !! i = Some par → kept fn i par →
     ¬ catalogued prog (normalized (fn_Signature fn)) →
     wd_fits wd prog →
     dummyImpl blk = false ∧ (fn, par) ∈ reported prog ∧
     ∃ ws w, eval (unusedParams wd prog) buf = Some ws ∧
             warning wd (Fset prog) (fn, par) = Some w ∧ w ∈ ws).
Proof.
  split_and!.
  - intros prog fn blk rest c par Hb Hi Hc.
    eapply dummy_not_reported; [done|]. unfold dummyImpl. rewrite Hi.
    cbn. by rewrite Hc.
  - intros prog fn blk rest x par Hb Hi.
    eapply dummy_not_reported; [done|]. unfold dummyImpl.
    by destruct Hi as [-> | ->].
  - intros wd prog buf fn pkg blk rest v i par Hb Hi Hv Hfn Hpkg Hin Hpar
      Hkept Hcat Hfit.
    assert (dummyImpl blk = false) as Hd.
    { unfold dummyImpl. rewrite Hi. cbn. by rewrite Hv. }
    assert ((fn, par) ∈ reported prog) as Hrep.
    { eapply kept_reported; [done| |done..]. by exists pkg, blk, rest. }
    split_and!; [done..|]. by apply reported_warned.
Qed.

Lemma stub_suppression_witness :
  ((ex_Zero, ex_p) ∉ reported ex_stub_prog) ∧
  ((ex_Todo, ex_q) ∉ reported ex_stub_prog) ∧
  dummyImpl (mkBlock [BinOp; Return [val "t0" "t0"]]) = false ∧
  (ex_Sum, ex_c) ∈ reported ex_stub_prog ∧
  ∃ ws w, eval (unusedParams "/home/u/proj" ex_stub_prog) "" = Some ws ∧
          warning "/home/u/proj" (Fset ex_stub_prog) (ex_Sum, ex_c) = Some w ∧
          w ∈ ws.
Proof.
  destruct stub_suppression as (Hret & Hpanic & Hreal). split_and!.
  - apply (Hret ex_stub_prog ex_Zero (mkBlock [Return [const "0:int"]]) []
             (const "0:int") ex_p); reflexivity.
  - apply (Hpanic ex_stub_prog ex_Todo
             (mkBlock [MakeInterface; Panic (val "t0" "t0")]) []
             (val "t0" "t0") ex_q); [reflexivity|right; reflexivity].
  - reflexivity.
  - eapply (Hreal "/home/u/proj" ex_stub_prog "" ex_Sum "example.com/proj"
              (mkBlock [BinOp; Return [val "t0" "t0"]]) [] (val "t0" "t0")
              2%nat ex_c); try reflexivity.
    + left.
    + left.
    + unfold kept. split_and!; [intros [? _]; lia|done..].
    + rewrite <-catalog_catalogued. by vm_compute.
    + unfold wd_fits. apply (bool_decide_unpack _). by vm_compute.
  - eapply (Hreal "/home/u/proj" ex_stub_prog "" ex_Sum "example.com/proj"
              (mkBlock [BinOp; Return [val "t0" "t0"]]) [] (val "t0" "t0")
              2%nat ex_c); try reflexivity.
    + left.
    + left.
    + unfold kept. split_and!; [intros [? _]; lia|done..].
    + rewrite <-catalog_catalogued. by vm_compute.
    + unfold wd_fits. apply (bool_decide_unpack _). by vm_compute.
Defined.

(** C10 — a return without results is a dummy implementation.  When every
    instruction before the first return of the entry block is passed over
    and that return has no results (an empty body is the case of no such
    instruction), [dummyImpl] answers [true] and no parameter of the
    function is reported. *)
Theorem empty_return_is_stub prog fn blk rest pre more par :
  fn_Blocks fn = blk :: rest →
  Instrs blk = pre ++ Return [] :: more →
  Forall passed pre →
  dummyImpl blk = true ∧ (fn, par) ∉ reported prog.
Proof.
  intros Hb Hi Hpre.
  assert (dummyImpl blk = true) as Hd.
  { unfold dummyImpl. by rewrite Hi, dummyImpl_from_passed. }
  split; [done|]. by eapply dummy_not_reported.
Qed.

Lemma empty_return_is_stub_witness :
  dummyImpl (mkBlock [Return []]) = true ∧ (ex_H, ex_cb) ∉ reported ex_prog.
Proof.
  apply (empty_return_is_stub ex_prog ex_H (mkBlock [Return []]) [] [] []
           ex_cb).
  - reflexivity.
  - reflexivity.
  - constructor.
Defined.

(** ** The catalog *)




(** Counterexample to C6 as stated.  [A] takes [f func(g func(int))]: the
    type of [g] is a signature with one parameter, nested as a parameter
    of the function-typed parameter [f], and its normalized form is not in
    the map that [funcSigns] builds; only that of [f] is. *)
Lemma nested_callback_not_catalogued :
  AllPackages ex_nested_prog
  = [mkPackage "example.com/proj" [MFunc "A" ex_sig_A]] ∧
  mkVar "f" (TSig ex_sig_f) ∈ Params ex_sig_A ∧
  mkVar "g" (TSig ex_sig_g) ∈ Params ex_sig_f ∧
  Params ex_sig_g ≠ [] ∧
  normalized ex_sig_g = "(int)()" ∧
  ∃ sigs, eval (funcSigns ex_nested_prog) "" = Some sigs ∧
          map_get sigs "(int)()" = false ∧
          map_get sigs "(func(int))()" = true.
Proof.
  split_and!; [done|left|left|done|by vm_compute|].
  exists (catalog ex_nested_prog).
  destruct (funcSigns_run ex_nested_prog "") as [buf' Hrun].
  unfold eval. rewrite Hrun. split_and!; [done|by vm_compute..].
Qed.

(** C6 (amended) — the catalog and the parameters of function
    declarations.  For every function declaration of every package, the
    map that [funcSigns] builds holds the normalized signature of each
    parameter whose type is itself a signature with at least one
    parameter.  (Signatures nested inside that type are not visited.) *)
Theorem declared_callbacks_catalogued prog buf pkg name sign v s :
  pkg ∈ AllPackages prog → MFunc name sign ∈ pkg_Members pkg →
  v ∈ Params sign → var_type v = TSig s → Params s ≠ [] →
  ∃ sigs, eval (funcSigns prog) buf = Some sigs ∧
          map_get sigs (normalized s) = true.
Proof.
  intros Hpkg Hmb Hv Ht Hs. exists (catalog prog).
  destruct (funcSigns_run prog buf) as [buf' Hrun].
  unfold eval. rewrite Hrun. split; [done|].
  apply catalog_catalogued. exists pkg, (MFunc name sign), s.
  split_and!; [done..| |done|done]. rewrite <-Ht. by constructor.
Qed.

Lemma declared_callbacks_catalogued_witness :
  ∃ sigs, eval (funcSigns ex_prog) "" = Some sigs ∧
          map_get sigs (normalized ex_sig_cb) = true.
Proof.
  apply (declared_callbacks_catalogued ex_prog "" ex_pkg "H" ex_sig_H
           (mkVar "cb" (TSig ex_sig_cb)) ex_sig_cb).
  - left.
  - right. right. left.
  - left.
  - reflexivity.
  - discriminate.
Defined.

(** ** The end-to-end example *)

(** Counterexample to C4 as stated.  The root package holds [F], [G] and
    [H]; [H] has an empty body and its one parameter [cb], of type
    [func(int)], is named and unused; no package declares a type, so no
    field, contract method or function type has the signature [(int)()].
    The run prints the warning for [b] of [F] and none for [cb]. *)
Lemma empty_body_H_no_warning :
  ex_H ∈ AllFunctions ex_prog ∧
  fn_Blocks ex_H = [mkBlock [Return []]] ∧
  fn_Params ex_H = [ex_cb] ∧ par_Referrers ex_cb = [] ∧
  (∀ pkg mb, pkg ∈ AllPackages ex_prog → mb ∈ pkg_Members pkg →
             ∃ name sign, mb = MFunc name sign) ∧
  warning "/home/u/proj" (Fset ex_prog) (ex_H, ex_cb)
  = Some "main.go:7:8: cb is unused" ∧
  eval (unusedParams "/home/u/proj" ex_prog) ""
  = Some ["main.go:3:15: b is unused"] ∧
  "main.go:7:8: cb is unused" ∉ ["main.go:3:15: b is unused"].
Proof.
  split_and!.
  - right. right. left.
  - done.
  - done.
  - done.
  - intros pkg mb ->%list_elem_of_singleton Hmb.
    repeat (apply elem_of_cons in Hmb as [->|Hmb]; [by eexists _, _|]).
    by apply elem_of_nil in Hmb.
  - by vm_compute.
  - by vm_compute.
  - intros ?%list_elem_of_singleton. done.
Qed.

Lemma scanned_candidates prog fn :
  scanned prog fn →
  function_candidates (wantPkg prog) fn = scanParams fn 0 (fn_Params fn) [].
Proof.
  intros (pkg&blk&rest&Hpkg&Hin&Hb&Hd).
  unfold function_candidates, scanFunction. rewrite Hpkg, Hb, Hd.
  apply wantPkg_spec in Hin. by rewrite Hin.
Qed.

(** C4 (amended) — the end-to-end example of [H].  Let [H] be a function
    of signature [func(cb func(int))] whose one parameter [cb] is named
    and unused.  With an empty body (a return without results) no
    parameter of [H] is reported.  Nor is any when some declaration of the
    program has the normalized signature of [H] itself, [(func(int))()];
    the signature of [cb], [(int)()], plays no part: the declaration of
    [H] puts it into the catalog on its own.  When [H] occurs once among
    the functions of the program, lies in a requested package, has an
    entry block that is not a dummy implementation, and no declaration
    has the signature [(func(int))()], then exactly one reported
    candidate belongs to [H], the one for [cb], and a run that stays in
    range prints its warning. *)
Theorem H_example prog H cb :
  fn_Signature H = ex_sig_H → fn_Params H = [cb] →
  par_ObjectName cb ≠ "" → par_ObjectName cb ≠ "_" → par_Referrers cb = [] →
  (∀ rest par,
     fn_Blocks H = mkBlock [Return []] :: rest → (H, par) ∉ reported prog) ∧
  (∀ par, catalogued prog "(func(int))()" → (H, par) ∉ reported prog) ∧
  (∀ pkg name,
     pkg ∈ AllPackages prog → MFunc name ex_sig_H ∈ pkg_Members pkg →
     catalogued prog "(int)()") ∧
  (∀ fns1 fns2,
     AllFunctions prog = fns1 ++ H :: fns2 → H ∉ fns1 → H ∉ fns2 →
     scanned prog H → ¬ catalogued prog "(func(int))()" →
     (∃ others, reported prog ≡ₚ (H, cb) :: others ∧
                ∀ c, c ∈ others → c.1 ≠ H) ∧
     ∀ wd buf, wd_fits wd prog →
       ∃ ws w, eval (unusedParams wd prog) buf = Some ws ∧
               warning wd (Fset prog) (H, cb) = Some w ∧ w ∈ ws).
Proof.
  intros Hsig Hpars Hn1 Hn2 Hr.
  assert (normalized (fn_Signature H) = "(func(int))()") as Hkey
    by (by rewrite Hsig).
  split_and!.
  - intros rest par Hb. by eapply dummy_not_reported.
  - intros par Hcat [_ Hun]%elem_of_reported.
    apply uncatalogued_spec in Hun. cbn [fst] in Hun. by rewrite Hkey in Hun.
  - intros pkg name Hpkg Hmb. exists pkg, (MFunc name ex_sig_H), ex_sig_cb.
    split_and!; [done..| |done|done].
    by apply (declares_param name ex_sig_H (mkVar "cb" (TSig ex_sig_cb))); left.
  - intros fns1 fns2 Hfns H1 H2 Hscan Hcat.
    assert (function_candidates (wantPkg prog) H = [(H, cb)]) as Hfc.
    { rewrite scanned_candidates, Hpars by done. cbn [scanParams].
      rewrite Hsig. rewrite decide_False by (by intros [_ ?]).
      rewrite decide_False by (by intros [?|?]).
      by rewrite Hr, decide_False by (cbn; lia). }
    assert (uncatalogued (catalog prog) (H, cb)) as Hun.
    { apply uncatalogued_spec. cbn [fst]. by rewrite Hkey. }
    split.
    + exists (filter (uncatalogued (catalog prog))
                ((fns1 ++ fns2) ≫= function_candidates (wantPkg prog))).
      split.
      * unfold reported.
        rewrite sorted_potential_perm, potential_bind, Hfns.
        rewrite !bind_app, bind_cons, Hfc. cbn [app].
        rewrite <-Permutation_middle. by rewrite filter_cons_True.
      * intros c [_ Hc]%list_elem_of_filter.
        apply list_elem_of_bind in Hc as (fn&Hc&Hfn).
        apply elem_of_function_candidates in Hc as (_&i&par&->&_).
        cbn [fst]. intros ->. apply elem_of_app in Hfn as [?|?]; done.
    + intros wd buf Hfit. apply reported_warned; [done|].
      apply elem_of_reported. split; [|done].
      rewrite potential_bind, Hfns, list_elem_of_bind. exists H.
      split; [rewrite Hfc; left|]. apply elem_of_app. right. left.
Qed.

Lemma H_example_witness :
  (∀ rest par,
     fn_Blocks ex_H = mkBlock [Return []] :: rest →
     (ex_H, par) ∉ reported ex_prog) ∧
  (∀ par, (ex_H_call, par) ∉ reported ex_prog_visitor) ∧
  catalogued ex_prog_call "(int)()" ∧
  (∃ others, reported ex_prog_call ≡ₚ (ex_H_call, ex_cb) :: others ∧
             ∀ c, c ∈ others → c.1 ≠ ex_H_call) ∧
  ∃ ws w, eval (unusedParams "/home/u/proj" ex_prog_call) "" = Some ws ∧
          warning "/home/u/proj" (Fset ex_prog_call) (ex_H_call, ex_cb)
          = Some w ∧ w ∈ ws.
Proof.
  assert (∀ prog, scanned prog ex_H_call ↔
                  "example.com/proj" ∈ InitialPackages prog) as Hscan.
  { intros prog. split.
    - by intros (pkg&blk&rest&[= <-]&?&_).
    - intros ?. eexists _, _, _. split_and!; [done..|by vm_compute]. }
  split_and!.
  - apply (H_example ex_prog ex_H ex_cb); done.
  - intros par.
    apply (H_example ex_prog_visitor ex_H_call ex_cb); [done..|].
    rewrite <-catalog_catalogued. by vm_compute.
  - apply (H_example ex_prog_call ex_H_call ex_cb) with (pkg := ex_pkg)
      (name := "H"); [done..|left|right; right; left].
  - apply (H_example ex_prog_call ex_H_call ex_cb) with
      (fns1 := [ex_F; ex_G]) (fns2 := []); [done..| | | | |].
    + done.
    + intros [[=]|[[=]|[]%elem_of_nil]%elem_of_cons]%elem_of_cons.
    + by intros ?%elem_of_nil.
    + apply Hscan. left.
    + rewrite <-catalog_catalogued. by vm_compute.
  - apply (H_example ex_prog_call ex_H_call ex_cb) with
      (fns1 := [ex_F; ex_G]) (fns2 := []); [done..| | | | | |].
    + done.
    + intros [[=]|[[=]|[]%elem_of_nil]%elem_of_cons]%elem_of_cons.
    + by intros ?%elem_of_nil.
    + apply Hscan. left.
    + rewrite <-catalog_catalogued. by vm_compute.
    + unfold wd_fits. apply (bool_decide_unpack _). by vm_compute.
Defined.

(** The end-to-end program with [H] calling out: the warnings for [b] and
    for [cb]; next to the contract of that signature: the one for [b]. *)
Example H_with_call_warns :
  eval (unusedParams "/home/u/proj" ex_prog_call) ""
  = Some ["main.go:3:15: b is unused"; "main.go:7:8: cb is unused"] ∧
  eval (unusedParams "/home/u/proj" ex_prog_visitor) ""
  = Some ["main.go:3:15: b is unused"].
Proof. by vm_compute. Qed.

(** ** The call rule of the stub detector *)

(** Counterexample to C5 as stated.  [fmt.Fprintln] is no word-boundary
    occurrence of [log] or [logger] and no [print]-prefixed name, and its
    bare name is not [throw]: by the rule as worded the scan ends with
    [false].  The pattern of the program also accepts an [f] before
    [print], so the scan goes on and the constant return makes the block
    a dummy implementation. *)
Lemma fprint_call_is_harmless :
  MatchString rxClaimed "fmt.Fprintln" = false ∧
  call_rule_claimed (val "Fprintln" "fmt.Fprintln") [Return [const "0:int"]]
  = false ∧
  dummyImpl_from [Call (val "Fprintln" "fmt.Fprintln"); Return [const "0:int"]]
  = true.
Proof. by vm_compute. Qed.

(** C5 (amended) — the call rule.  When the scan reaches a call: if the
    text of the callee holds, at a word start and in either case, [log]
    or [logger] as a whole word, or [print] or [fprint] with anything
    after it, the scan goes on with the next instruction; otherwise it
    ends, with [true] exactly when the bare name of the callee is
    [throw]. *)
Theorem call_rule pre v rest :
  Forall passed pre →
  (MatchString rxHarmlessCall (val_String v) = true ↔
   harmless_name (val_String v)) ∧
  (harmless_name (val_String v) →
   dummyImpl_from (pre ++ Call v :: rest) = dummyImpl_from rest) ∧
  (¬ harmless_name (val_String v) →
   dummyImpl_from (pre ++ Call v :: rest) = bool_decide (val_Name v = "throw")).
Proof.
  intros Hpre. rewrite dummyImpl_from_passed, dummyImpl_from_Call by done.
  split_and!.
  - apply rxHarmlessCall_spec.
  - intros Hh%rxHarmlessCall_spec. by rewrite Hh.
  - intros Hh. rewrite <-rxHarmlessCall_spec in Hh.
    by destruct (MatchString _ _).
Qed.

Lemma call_rule_witness :
  (MatchString rxHarmlessCall "fmt.Fprintln" = true ↔
   harmless_name "fmt.Fprintln") ∧
  (harmless_name "fmt.Fprintln" →
   dummyImpl_from ([Alloc; Store] ++
                   Call (val "Fprintln" "fmt.Fprintln") :: [Return []])
   = dummyImpl_from [Return []]) ∧
  (¬ harmless_name "fmt.Fprintln" →
   dummyImpl_from ([Alloc; Store] ++
                   Call (val "Fprintln" "fmt.Fprintln") :: [Return []])
   = bool_decide ("Fprintln" = "throw")).
Proof.
  apply (call_rule [Alloc; Store] (val "Fprintln" "fmt.Fprintln") [Return []]).
  repeat constructor; by left.
Defined.

(** Calls on either side of the rule. *)
Example call_rule_samples :
  harmless_name "fmt.Fprintln" ∧ harmless_name "(*log.Logger).Fatalf" ∧
  ¬ harmless_name "blueprint.Load" ∧ ¬ harmless_name "catalog.Get" ∧
  dummyImpl_from [Call (val "throw" "runtime.throw")] = true ∧
  dummyImpl_from [Call (val "Exit" "os.Exit"); Return []] = false.
Proof.
  rewrite <-!rxHarmlessCall_spec. by vm_compute.
Qed.

(** ** Order of the output *)

Lemma sorted_lookup_le {A} (R : relation A) l i j x y :
  (∀ z, R z z) →
  StronglySorted R l → l !! i = Some x → l !! j = Some y → (i ≤ j)%nat →
  R x y.
Proof.
  intros Hrefl Hs. revert i j.
  induction Hs as [|z l Hs IH Hz]; intros i j; [done|].
  destruct i as [|i], j as [|j]; cbn; intros Hi Hj Hij; try lia.
  - simplify_eq. apply Hrefl.
  - simplify_eq. rewrite Forall_forall in Hz.
    by eapply Hz, list_elem_of_lookup_2.
  - eapply IH; [done..|lia].
Qed.



Lemma ex_stub_same_model : same_model ex_stub_prog ex_stub_prog'.
Proof.
  split; [done| |apply perm_swap|done].
  eexists. split; [done|]. by repeat constructor.
Qed.

Lemma ex_two_files_same_model :
  same_model ex_two_files_prog ex_two_files_prog'.
Proof.
  split; [done| |apply perm_swap|done].
  eexists. split; [done|]. by repeat constructor.
Qed.


(** ** Determinism *)

(** C9 — determinism.  Two runs over the same program model return the
    same list of warnings (or both panic), whatever [signBuf] holds when
    each starts.  This stays so when the two runs see the packages,
    members and functions in different orders, provided no two candidates
    share a position. *)
Theorem runs_agree wd prog buf buf' :
  eval (unusedParams wd prog) buf = eval (unusedParams wd prog) buf' ∧
  ∀ prog', same_model prog prog' → positions_distinct prog →
    eval (unusedParams wd prog) buf = eval (unusedParams wd prog') buf'.
Proof.
  split; [by rewrite !unusedParams_eval|].
  intros prog' Hsame Hnd. rewrite !unusedParams_eval.
  by rewrite <-(same_model_reported prog prog'), <-(same_fset _ _ Hsame).
Qed.

Lemma runs_agree_witness :
  eval (unusedParams "/home/u/proj" ex_stub_prog) ""
  = eval (unusedParams "/home/u/proj" ex_stub_prog) "(int)()" ∧
  eval (unusedParams "/home/u/proj" ex_stub_prog) ""
  = eval (unusedParams "/home/u/proj" ex_stub_prog') "(int)()".
Proof.
  destruct (runs_agree "/home/u/proj" ex_stub_prog "" "(int)()")
    as [Hbuf Horder].
  split; [exact Hbuf|]. apply Horder.
  - apply ex_stub_same_model.
  - unfold positions_distinct. apply (bool_decide_unpack _). by vm_compute.
Defined.

(** ** Rendering of positions *)

(** Where the cut is right: a position in another tree is printed as it
    is, and one under the working directory loses the directory and the
    separator. *)
Lemma relative_elsewhere wd line :
  String.prefix wd line = false → relative wd line = Some line.
Proof. intros H. unfold relative. by rewrite H. Qed.

Lemma prefix_app wd rest : String.prefix wd (wd +:+ rest) = true.
Proof.
  induction wd as [|c wd IH]; [by destruct rest|].
  rewrite string_app_cons. cbn [String.prefix].
  by destruct (ascii_dec c c).
Qed.

Lemma slice_from_app wd c rest :
  slice_from (String.length wd + 1) (wd +:+ String c rest) = Some rest.
Proof.
  induction wd as [|d wd IH]; [done|].
  by rewrite string_app_cons.
Qed.

Lemma relative_under wd c rest :
  relative wd (wd +:+ String c rest) = Some rest.
Proof. unfold relative. by rewrite prefix_app, slice_from_app. Qed.

(** The end-to-end example: [b] of [F] is the one warning. *)
Example end_to_end :
  eval (unusedParams "/home/u/proj" ex_prog) ""
  = Some ["main.go:3:15: b is unused"].
Proof. by vm_compute. Qed.

(** C8 at the failing input: the package in
    [/go/src/example.com/project2] analysed from the working directory
    [/go/src/example.com/proj].  The file is not under the working
    directory, whose text is nonetheless a prefix of the position; the
    warning loses the first twenty-five characters of its path. *)
Theorem sibling_directory_cut :
  position_line (Fset ex_sibling_prog) (ex_sibling_F, ex_sibling_y)
  = "/go/src/example.com/project2/a.go:3:8" ∧
  String.prefix "/go/src/example.com/proj/"
                "/go/src/example.com/project2/a.go:3:8" = false ∧
  eval (unusedParams "/go/src/example.com/proj" ex_sibling_prog) ""
  = Some ["ct2/a.go:3:8: y is unused"].
Proof. by vm_compute. Qed.

(** * Further properties of the code *)

(** ** Rendering of signatures *)

(** X1 — [tupleJoin] never fails and only appends: after it the buffer
    holds what it held before, then the types of the tuple between
    parentheses, separated by a comma and a space; no separator before the
    first type or after the last, and [()] for the empty tuple. *)
Theorem tupleJoin_appends t buf :
  tupleJoin t buf
  = Some (tt, buf +:+ "(" +:+
              join_with TypeString ", " (var_type <$> t) +:+ ")").
Proof. rewrite tupleJoin_run. done. Qed.



(** X3 — [signString] returns the parameter tuple followed by the result
    tuple, each as [tupleJoin] writes it, and nothing of what the buffer
    held before; the buffer is left holding exactly the returned text. *)
Theorem signString_renders sign buf :
  signString sign buf
  = let s := "(" +:+ join_with TypeString ", " (var_type <$> Params sign)
             +:+ ")" +:+
             "(" +:+ join_with TypeString ", " (var_type <$> Results sign)
             +:+ ")" in
    Some (s, s).
Proof.
  rewrite signString_run. unfold normalized, tuple_text. cbv zeta.
  by rewrite !string_app_assoc.
Qed.

(** ** The stub detector, in full *)

Lemma forallb_isConst results :
  forallb val_isConst results = true ↔
  Forall (λ v, val_isConst v = true) results.
Proof.
  induction results as [|v vs IH]; cbn [forallb].
  - split; [constructor|done].
  - rewrite andb_true_iff, IH, Forall_cons. done.
Qed.

Lemma dummyImpl_from_true_iff instrs :
  dummyImpl_from instrs = true ↔
  ∃ pre instr rest,
    instrs = pre ++ instr :: rest ∧ Forall passed pre ∧ decides_stub instr.
Proof.
  split.
  - induction instrs as [|a instrs IH]; [done|].
    assert (structural a → dummyImpl_from instrs = true →
            ∃ pre instr rest, a :: instrs = pre ++ instr :: rest ∧
                              Forall passed pre ∧ decides_stub instr) as Hskip.
    { intros Ha (pre&i&rest&->&Hpre&Hi)%IH. exists (a :: pre), i, rest.
      split_and!; [done| |done]. constructor; [by left|done]. }
    destruct a; cbn [dummyImpl_from]; try done; try (by apply Hskip).
    + intros ?%forallb_isConst. by exists [], (Return Results0), instrs.
    + intros _. by exists [], (Panic X), instrs.
    + destruct (MatchString rxHarmlessCall (val_String Value0)) eqn:Hm.
      * intros (pre&i&rest&->&Hpre&Hi)%IH.
        exists (Call Value0 :: pre), i, rest. split_and!; [done| |done].
        constructor; [|done]. right. exists Value0. split; [done|].
        by apply rxHarmlessCall_spec.
      * intros Hn%bool_decide_eq_true. exists [], (Call Value0), instrs.
        split_and!; [done|constructor|]. split; [|done].
        rewrite <-rxHarmlessCall_spec. by rewrite Hm.
  - intros (pre&i&rest&->&Hpre&Hi). rewrite dummyImpl_from_passed by done.
    destruct i; try done; cbn [dummyImpl_from decides_stub] in *.
    + by apply forallb_isConst.
    + destruct Hi as [Hh Hn]. rewrite <-rxHarmlessCall_spec in Hh.
      destruct (MatchString _ _); [done|]. by apply bool_decide_eq_true.
Qed.

(** X4 — what makes a block a dummy implementation.  [dummyImpl] answers
    [true] exactly when, after instructions that are all passed over
    (structural ones and calls with a harmless name), the block reaches a
    return whose results are all constants, a panic, or a call whose text
    is not harmless and whose bare name is [throw]. *)
Theorem dummyImpl_true_iff blk :
  dummyImpl blk = true ↔
  ∃ pre instr rest,
    Instrs blk = pre ++ instr :: rest ∧ Forall passed pre ∧
    decides_stub instr.
Proof. apply dummyImpl_from_true_iff. Qed.

(** X5 — what makes a block not a dummy implementation.  A block that
    runs out while every instruction is passed over (the empty block
    among them) is none; nor is one whose first instruction not passed
    over is anything but a deciding return, panic or call: a return with a
    result that is not a constant, a call that is neither harmless nor
    [throw], or any other kind of instruction (a branch, a jump, a field
    read, a closure, ...). *)
Theorem dummyImpl_false_cases :
  (∀ instrs, Forall passed instrs → dummyImpl (mkBlock instrs) = false) ∧
  (∀ pre instr rest,
     Forall passed pre → ¬ passed instr → ¬ decides_stub instr →
     dummyImpl (mkBlock (pre ++ instr :: rest)) = false).
Proof.
  unfold dummyImpl. cbn [Instrs]. split.
  - intros instrs Hp. rewrite <-(app_nil_r instrs).
    by rewrite dummyImpl_from_passed.
  - intros pre i rest Hpre Hnp Hnd. rewrite dummyImpl_from_passed by done.
    destruct i; cbn [dummyImpl_from decides_stub] in *; try done;
      try (by destruct Hnp; left).
    + destruct (forallb val_isConst Results0) eqn:Hf; [|done].
      by apply forallb_isConst in Hf.
    + destruct (MatchString _ _) eqn:Hm.
      * destruct Hnp. right. exists Value0. split; [done|].
        by apply rxHarmlessCall_spec.
      * apply bool_decide_eq_false. intros Hn. apply Hnd. split; [|done].
        rewrite <-rxHarmlessCall_spec. by rewrite Hm.
Qed.

Lemma dummyImpl_false_cases_witness :
  dummyImpl (mkBlock [Alloc; Store; Call (val "Println" "log.Println")])
  = false ∧
  dummyImpl (mkBlock ([BinOp] ++ If :: [Return []])) = false.
Proof.
  destruct dummyImpl_false_cases as [Hrun Hother]. split.
  - apply Hrun.
    apply Forall_cons. split; [by left|].
    apply Forall_cons. split; [by left|].
    apply Forall_cons. split; [|constructor].
    right. eexists. split; [done|]. apply rxHarmlessCall_spec. by vm_compute.
  - apply Hother.
    + apply Forall_cons. split; [by left|constructor].
    + intros [[]|(v&?&_)]. done.
    + intros [].
Defined.

(** X6 — the scan stops at the first instruction it does not pass over:
    whatever follows that instruction in the block has no part in the
    answer. *)
Theorem dummyImpl_stops pre instr rest rest' :
  Forall passed pre → ¬ passed instr →
  dummyImpl (mkBlock (pre ++ instr :: rest))
  = dummyImpl (mkBlock (pre ++ instr :: rest')).
Proof.
  intros Hpre Hnp. unfold dummyImpl. cbn [Instrs].
  rewrite !dummyImpl_from_passed by done.
  destruct instr; cbn [dummyImpl_from]; try done;
    try (by destruct Hnp; left).
  destruct (MatchString _ _) eqn:Hm; [|done].
  destruct Hnp. right. exists Value0. split; [done|].
  by apply rxHarmlessCall_spec.
Qed.

Lemma dummyImpl_stops_witness :
  dummyImpl (mkBlock ([MakeInterface] ++ Panic (val "t0" "t0") :: []))
  = dummyImpl (mkBlock ([MakeInterface] ++ Panic (val "t0" "t0")
                          :: [Call (val "Exit" "os.Exit"); Return []])).
Proof.
  apply (dummyImpl_stops [MakeInterface] (Panic (val "t0" "t0")) []
           [Call (val "Exit" "os.Exit"); Return []]).
  - apply Forall_cons. split; [by left|constructor].
  - intros [[]|(v&?&_)]. done.
Defined.

(** ** The harmless-call pattern *)

Lemma to_lower_idemp c : to_lower (to_lower c) = to_lower c.
Proof. by destruct c as [[] [] [] [] [] [] [] []]. Qed.

Lemma lower_idemp s : lower (lower s) = lower s.
Proof.
  induction s as [|c s IH]; [done|]. cbn [lower].
  by rewrite to_lower_idemp, IH.
Qed.

Lemma lower_app_inv s a b :
  lower s = a +:+ b → ∃ s1 s2, s = s1 +:+ s2 ∧ lower s1 = a ∧ lower s2 = b.
Proof.
  revert s. induction a as [|c a IH]; intros s Hs.
  - by exists "", s.
  - rewrite string_app_cons in Hs.
    apply lower_cons_inv in Hs as (x&s'&->&Hx&Hs').
    apply IH in Hs' as (s1&s2&->&H1&H2).
    exists (String x s1), s2. split_and!; [done| |done].
    cbn [lower]. by rewrite Hx, H1.
Qed.

Lemma at_word_start_lower pre : at_word_start (lower pre) ↔ at_word_start pre.
Proof.
  unfold at_word_start. destruct pre as [|c pre]; [done|].
  by rewrite (is_word_last_lower None (String c pre)).
Qed.

Lemma at_word_end_lower post : at_word_end (lower post) ↔ at_word_end post.
Proof.
  unfold at_word_end. destruct post as [|c post]; [done|].
  cbn. by rewrite is_word_lower.
Qed.

Lemma harmless_name_lower s : harmless_name (lower s) ↔ harmless_name s.
Proof.
  unfold harmless_name. split.
  - intros (pre'&w'&post'&Hs&Hpre&Hw).
    apply lower_app_inv in Hs as (pre&rest&->&<-&Hrest).
    apply lower_app_inv in Hrest as (w&post&->&<-&<-).
    exists pre, w, post. split; [done|].
    rewrite at_word_start_lower in Hpre. rewrite at_word_end_lower in Hw.
    by rewrite lower_idemp in Hw.
  - intros (pre&w&post&->&Hpre&Hw).
    exists (lower pre), (lower w), (lower post).
    rewrite !lower_app, at_word_start_lower, at_word_end_lower, lower_idemp.
    done.
Qed.

(** X7 — the pattern does not see the case of ASCII letters: a callee's
    text matches [rxHarmlessCall] exactly when the text with its capitals
    lowered does. *)
Theorem harmless_any_case s :
  MatchString rxHarmlessCall (lower s) = MatchString rxHarmlessCall s.
Proof.
  apply bool_eq_true_iff. rewrite !rxHarmlessCall_spec.
  apply harmless_name_lower.
Qed.

Lemma last_char_nonempty prev prev' s :
  s ≠ "" → last_char prev s = last_char prev' s.
Proof. by destruct s. Qed.

(** X8 — a match survives qualification.  When a text matches the
    pattern, so does the text with something put before it that ends
    outside a word (or nothing) and something put after it that starts
    outside a word (or nothing): a package path, a receiver type in
    parentheses, an argument list. *)
Theorem harmless_in_context before s after :
  is_word (last_char None before) = false →
  is_word (string_head after) = false →
  MatchString rxHarmlessCall s = true →
  MatchString rxHarmlessCall (before +:+ s +:+ after) = true.
Proof.
  intros Hb Ha. rewrite !rxHarmlessCall_spec.
  intros (pre&w&post&->&Hpre&Hw).
  exists (before +:+ pre), w, (post +:+ after).
  split_and!.
  - by rewrite !string_app_assoc.
  - unfold at_word_start in *. rewrite last_char_app.
    destruct pre as [|c pre]; [done|].
    by rewrite (last_char_nonempty _ None).
  - destruct Hw as [[Hw He]|Hw]; [left|by right]. split; [done|].
    unfold at_word_end in *. destruct post as [|c post]; [done|].
    by rewrite string_app_cons.
Qed.

Lemma harmless_in_context_witness :
  MatchString rxHarmlessCall ("(*log.Logger)." +:+ "Printf" +:+ "(t0...)")
  = true.
Proof.
  apply (harmless_in_context "(*log.Logger)." "Printf" "(t0...)");
    by vm_compute.
Defined.

(** ** What is reported, and what never is *)

(** X9 — the reported parameters, exactly.  A parameter is among the
    reported candidates when, and only when, its function is one of the
    functions of the program, lies in a requested package, has a body
    whose entry block is not a dummy implementation, the parameter sits
    at some index of the function's parameters where it is kept (not the
    receiver, named other than [_], without referrers), and the
    normalized signature of the function is not in the catalog. *)
Theorem reported_iff prog fn par :
  (fn, par) ∈ reported prog ↔
  fn ∈ AllFunctions prog ∧ scanned prog fn ∧
  (∃ i, fn_Params fn !! i = Some par ∧ kept fn i par) ∧
  ¬ catalogued prog (normalized (fn_Signature fn)).
Proof.
  rewrite elem_of_reported, elem_of_potential, uncatalogued_spec.
  cbn [fst]. tauto.
Qed.

(** X10 — functions the scan never enters.  No parameter is reported of a
    function without a package (a builtin), of one without blocks (no
    body), or of one whose package is not among the initial packages. *)
Theorem unscanned_function_silent prog fn par :
  fn_Pkg fn = None ∨ fn_Blocks fn = [] ∨
  (∃ pkg, fn_Pkg fn = Some pkg ∧ pkg ∉ InitialPackages prog) →
  (fn, par) ∉ reported prog.
Proof.
  intros Hout [Hp _]%elem_of_reported.
  apply elem_of_potential in Hp as (_&(pkg&blk&rest&Hpkg&Hin&Hb&_)&_).
  destruct Hout as [Hn|[Hn|(pkg'&Hpkg'&Hnin)]]; [congruence..|].
  rewrite Hpkg in Hpkg'. by simplify_eq.
Qed.

Lemma unscanned_function_silent_witness :
  (ex_dep_fn, mkParam "n" "n" 300 []) ∉
    reported (mkProgram ["example.com/proj"] (AllPackages ex_prog)
                (ex_dep_fn :: AllFunctions ex_prog) (Fset ex_prog)).
Proof.
  apply unscanned_function_silent. right. right.
  exists "example.com/dep". split; [done|].
  intros ?%list_elem_of_singleton. done.
Defined.

(** X11 — parameters the scan never keeps.  A parameter whose declared
    name is empty or [_] is not reported, wherever it sits; and of a
    method, the parameter at index 0 (the receiver) is not reported
    unless the same parameter also sits at a later index. *)
Theorem blank_and_receiver_silent prog fn par :
  par_ObjectName par = "" ∨ par_ObjectName par = "_" ∨
  (Recv (fn_Signature fn) ≠ None ∧
   ∀ i, fn_Params fn !! i = Some par → i = 0%nat) →
  (fn, par) ∉ reported prog.
Proof.
  intros Hout [Hp _]%elem_of_reported.
  apply elem_of_potential in Hp as (_&_&i&Hi&Hnr&Hn1&Hn2&_).
  destruct Hout as [?|[?|[Hrecv Hidx]]]; [done..|].
  apply Hnr. split; [by apply Hidx|done].
Qed.

Lemma blank_and_receiver_silent_witness :
  let prog := mkProgram ["example.com/proj"] [] [ex_method] [] in
  ((ex_method, mkParam "_" "_" 125 []) ∉ reported prog) ∧
  ((ex_method, mkParam "r" "r" 120 []) ∉ reported prog).
Proof.
  split.
  - apply blank_and_receiver_silent. right. by left.
  - apply blank_and_receiver_silent. right. right. split; [done|].
    intros [|[|[|i]]]; by cbn.
Defined.

(** X12 — one warning per parameter at most.  The reported candidates
    are, up to order, a selection from the parameters of the functions of
    the program, each taken no more often than it occurs there; so a
    completed run prints no more warnings than there are parameters, and
    none for a program without parameters. *)
Theorem reported_within_parameters wd prog buf ws :
  eval (unusedParams wd prog) buf = Some ws →
  reported prog ⊆+ parameter_slots prog ∧
  (List.length ws ≤ List.length (parameter_slots prog))%nat.
Proof.
  intros Hrun.
  assert (reported prog ⊆+ parameter_slots prog) as Hsub.
  { unfold reported. etrans; [apply sublist_submseteq, sublist_filter|].
    rewrite sorted_potential_perm, potential_bind.
    apply sublist_submseteq. unfold parameter_slots.
    induction (AllFunctions prog) as [|fn fns IH]; [done|].
    rewrite !bind_cons. apply sublist_app; [|done].
    unfold function_candidates, scanFunction.
    destruct (fn_Pkg fn); [|apply sublist_nil_l].
    destruct (fn_Blocks fn); [apply sublist_nil_l|].
    destruct (negb _); [apply sublist_nil_l|].
    destruct (dummyImpl _); [apply sublist_nil_l|].
    generalize 0%nat. induction (fn_Params fn) as [|par pars IHp]; intros i.
    - done.
    - cbn [scanParams fmap list_fmap].
      repeat (destruct (decide _); [by apply sublist_cons|]).
      rewrite app_nil_l, scanParams_acc. by apply sublist_skip. }
  split; [done|].
  apply unusedParams_Some, Forall2_length in Hrun. rewrite <-Hrun.
  by apply submseteq_length.
Qed.

Lemma reported_within_parameters_witness :
  reported ex_stub_prog ⊆+ parameter_slots ex_stub_prog ∧
  (List.length ["stub.go:5:18: v is unused"; "stub.go:6:16: c is unused"]
   ≤ List.length (parameter_slots ex_stub_prog))%nat.
Proof.
  apply (reported_within_parameters "/home/u/proj" ex_stub_prog "").
  by vm_compute.
Defined.

(** X13 — the catalog only silences.  When a program is given more
    packages, its functions and initial packages unchanged, what it
    reports is what it reported before, in the same order, less the
    candidates whose signature the larger catalog holds. *)
Theorem more_packages_fewer_warnings prog prog' :
  AllFunctions prog' = AllFunctions prog →
  InitialPackages prog' = InitialPackages prog →
  (∀ pkg, pkg ∈ AllPackages prog → pkg ∈ AllPackages prog') →
  reported prog' = filter (uncatalogued (catalog prog')) (reported prog) ∧
  reported prog' `sublist_of` reported prog.
Proof.
  intros Hfns Hinit Hpkgs.
  assert (potential prog' = potential prog) as Hpot.
  { unfold potential, wantPkg. by rewrite Hfns, Hinit. }
  assert (reported prog'
          = filter (uncatalogued (catalog prog')) (reported prog)) as Heq.
  { unfold reported. rewrite Hpot, list_filter_filter.
    apply list_filter_iff. intros c. split; [|by intros [? _]].
    intros Hc. split; [done|]. apply uncatalogued_spec.
    apply uncatalogued_spec in Hc. intros Hcat. apply Hc.
    destruct Hcat as (pkg&mb&sign&?&?&?&?&?).
    exists pkg, mb, sign. split_and!; [by apply Hpkgs|done..]. }
  split; [done|]. rewrite Heq. apply sublist_filter.
Qed.

Lemma more_packages_fewer_warnings_witness :
  reported ex_contract_prog
  = filter (uncatalogued (catalog ex_contract_prog)) (reported ex_alone_prog) ∧
  reported ex_contract_prog `sublist_of` reported ex_alone_prog.
Proof.
  apply (more_packages_fewer_warnings ex_alone_prog ex_contract_prog).
  - reflexivity.
  - reflexivity.
  - intros pkg ->%list_elem_of_singleton. right. left.
Defined.

(** X14 — the catalog, exactly.  [funcSigns] never fails, and the map it
    builds answers [true] at a key when, and only when, some member of
    some package declares — as the type of a parameter of a function
    declaration, of a field of a struct type, of a method of an interface
    type, or as a function type — a signature with at least one parameter
    whose normalized form is the key.  Constants, variables, other types
    and signatures without parameters leave it as it is. *)
Theorem funcSigns_exactly prog buf :
  ∃ sigs buf',
    funcSigns prog buf = Some (sigs, buf') ∧
    ∀ k, map_get sigs k = true ↔
         ∃ pkg mb sign,
           pkg ∈ AllPackages prog ∧ mb ∈ pkg_Members pkg ∧
           declares mb (TSig sign) ∧ Params sign ≠ [] ∧
           normalized sign = k.
Proof.
  destruct (funcSigns_run prog buf) as [buf' H].
  exists (catalog prog), buf'. split; [done|]. apply catalog_catalogued.
Qed.

(** ** The text of a warning *)

Lemma slice_from_split n s r :
  slice_from n s = Some r →
  ∃ cut, s = cut +:+ r ∧ String.length cut = n.
Proof.
  revert s. induction n as [|n IH]; intros s; cbn [slice_from].
  - intros [= ->]. by exists "".
  - destruct s as [|c s]; [done|]. intros (cut&->&<-)%IH.
    by exists (String c cut).
Qed.

Lemma slice_from_past s : slice_from (String.length s + 1) s = None.
Proof. induction s as [|c s IH]; [done|]. by cbn. Qed.

Lemma prefix_refl s : String.prefix s s = true.
Proof.
  induction s as [|c s IH]; [done|]. cbn [String.prefix].
  by destruct (ascii_dec c c).
Qed.

Lemma warning_None_iff wd fset c :
  warning wd fset c = None ↔ position_line fset c = wd.
Proof.
  split.
  - intros Hn. destruct (decide (position_line fset c = wd)); [done|].
    destruct (warning_is_Some wd fset c) as [w Hw]; [done|]. congruence.
  - intros Hl. unfold warning, relative.
    by rewrite Hl, prefix_refl, slice_from_past.
Qed.

(** X15 — the shape of the output.  Each warning of a completed run
    belongs to a reported candidate and reads [line: name is unused],
    [name] the name of the parameter and [line] the text of its position,
    whole or with its first [len(wd)+1] bytes cut off; the cut happens
    only when the text of the working directory starts the position. *)
Theorem warning_shape wd prog buf ws w :
  eval (unusedParams wd prog) buf = Some ws → w ∈ ws →
  ∃ c cut line,
    c ∈ reported prog ∧
    position_line (Fset prog) c = cut +:+ line ∧
    (cut = "" ∨
     String.prefix wd (position_line (Fset prog) c) = true ∧
     String.length cut = (String.length wd + 1)%nat) ∧
    w = line +:+ ": " +:+ par_Name c.2 +:+ " is unused".
Proof.
  intros Hrun%unusedParams_Some (i&Hi)%list_elem_of_lookup.
  destruct (Forall2_lookup_r _ _ _ _ _ Hrun Hi) as (c&Hc&Hw).
  unfold warning, relative in Hw.
  destruct (String.prefix wd _) eqn:Hp.
  - destruct (slice_from _ _) as [line|] eqn:Hs; [|done].
    apply slice_from_split in Hs as (cut&Hcut&Hlen).
    exists c, cut, line. cbn in Hw. injection Hw as <-.
    split_and!; [by eapply list_elem_of_lookup_2|done|by right|done].
  - exists c, "", (position_line (Fset prog) c). cbn in Hw.
    injection Hw as <-.
    split_and!; [by eapply list_elem_of_lookup_2|done|by left|done].
Qed.

Lemma warning_shape_witness :
  ∃ c cut line,
    c ∈ reported ex_stub_prog ∧
    position_line (Fset ex_stub_prog) c = cut +:+ line ∧
    (cut = "" ∨
     String.prefix "/home/u/proj" (position_line (Fset ex_stub_prog) c) = true ∧
     String.length cut = (String.length "/home/u/proj" + 1)%nat) ∧
    "stub.go:6:16: c is unused" = line +:+ ": " +:+ par_Name c.2 +:+ " is unused".
Proof.
  apply (warning_shape "/home/u/proj" ex_stub_prog ""
           ["stub.go:5:18: v is unused"; "stub.go:6:16: c is unused"]).
  - by vm_compute.
  - right. left.
Defined.

(** X16 — where the path is made relative as meant.  In a completed run
    the warning of a reported candidate whose position is the working
    directory, a separator and a rest shows that rest alone; the warning
    of one whose position does not start with the text of the working
    directory shows the position unchanged. *)
Theorem relative_as_meant wd prog buf ws i c :
  eval (unusedParams wd prog) buf = Some ws →
  reported prog !! i = Some c →
  (∀ rest, position_line (Fset prog) c = wd +:+ "/" +:+ rest →
     ws !! i = Some (rest +:+ ": " +:+ par_Name c.2 +:+ " is unused")) ∧
  (String.prefix wd (position_line (Fset prog) c) = false →
     ws !! i = Some (position_line (Fset prog) c +:+ ": " +:+
                     par_Name c.2 +:+ " is unused")).
Proof.
  intros Hrun%unusedParams_Some Hc.
  destruct (Forall2_lookup_l _ _ _ _ _ Hrun Hc) as (w&Hw&Hwc).
  rewrite Hw. unfold warning in Hwc. split.
  - intros rest Hl. rewrite Hl in Hwc.
    change (wd +:+ "/" +:+ rest) with (wd +:+ String "/" rest) in Hwc.
    rewrite relative_under in Hwc. cbn in Hwc. by rewrite <-Hwc.
  - intros Hp. rewrite relative_elsewhere in Hwc by done. cbn in Hwc.
    by rewrite <-Hwc.
Qed.

Lemma relative_as_meant_witness :
  (∀ rest,
     position_line (Fset ex_stub_prog) (ex_Last, ex_v)
     = "/home/u/proj" +:+ "/" +:+ rest →
     ["stub.go:5:18: v is unused"; "stub.go:6:16: c is unused"] !! 0%nat
     = Some (rest +:+ ": " +:+ par_Name ex_v +:+ " is unused")) ∧
  (String.prefix "/home/u/proj"
     (position_line (Fset ex_stub_prog) (ex_Last, ex_v)) = false →
     ["stub.go:5:18: v is unused"; "stub.go:6:16: c is unused"] !! 0%nat
     = Some (position_line (Fset ex_stub_prog) (ex_Last, ex_v) +:+ ": " +:+
             par_Name ex_v +:+ " is unused")).
Proof.
  apply (relative_as_meant "/home/u/proj" ex_stub_prog ""
           ["stub.go:5:18: v is unused"; "stub.go:6:16: c is unused"]
           0%nat (ex_Last, ex_v)); by vm_compute.
Defined.

(** X17 — when the run panics.  The slice expression of the warning loop
    goes out of range, and with it the whole run, exactly when the text of
    the position of some reported candidate is the working directory
    itself; nothing is returned then, and the run completes in every
    other case. *)
Theorem run_panics_iff wd prog buf :
  eval (unusedParams wd prog) buf = None ↔
  ∃ c, c ∈ reported prog ∧ position_line (Fset prog) c = wd.
Proof.
  rewrite unusedParams_eval, mapM_None, Exists_exists.
  split; intros (c&?&Hc); exists c; (split; [done|]);
    by apply warning_None_iff.
Qed.
